(** * collection.js: a paginated, promise-driven collection

    Shallow embedding of [src/collection.js].  A [Collection] is an
    array-like object bound to a [query] function; [more] loads the next
    page, [refresh] clears the collection and loads again.  The promise
    chain built by [more],

      [col.query(lenBef).then(onItems, onErr).finally(onFinally)],

    is kept as one [Attempt] per invocation of the query, with one
    promise state per link of the chain.  Promise callbacks never run
    synchronously: they are separate events of the transition system
    [step] below, which can be interleaved with further calls to [more]
    and [refresh]. *)

From stdpp Require Import base option list gmap.

Set Default Proof Using "Type".

(** ** Data *)

(** [loadingState]: ['loading' | 'loaded' | 'failed']; the field is
    [undefined] (here [None]) until the first [refresh] or settlement. *)
Inductive LoadingState := Loading | Loaded | Failed.

(** A promise is referred to by the index of the attempt that made it. *)
Abbreviation PromiseRef := nat (only parsing).

Section Collection.

Context {Item Err : Type}.

(** The object resolved by a successful load. *)
Record LoadResult := mkLoadResult {
  r_items : list Item;
  oldLength : nat;
  newLength : nat;
  firstSuccessfulQuery : bool
}.

(** What the promise returned by [query] settles with. *)
Inductive QOutcome :=
  | QOk (items : list Item)     (* fulfilled with an array of items *)
  | QErr (err : Err).           (* rejected with [err] *)

(** Values carried by the promises derived with [then] and [finally]. *)
Inductive Value :=
  | VResult (r : LoadResult)
  | VErr (err : Err).

Inductive Settled :=
  | Fulfilled (v : Value)
  | Rejected (v : Value).

(** The instance: [Collection.prototype = []] makes it an ordinary object
    with an array prototype, so it carries index properties ([elems]) and
    a plain [length] property; [moreQ] is [None] for [undefined]/[null]. *)
Record Collection := mkCollection {
  elems : gmap nat Item;
  col_length : nat;
  loadingState : option LoadingState;
  moreQ : option PromiseRef
}.

(** One invocation of [col.query(lenBef).then(..).finally(..)]: the two
    variables captured by the callbacks and the state of the three
    promises of the chain ([None] while pending). *)
Record Attempt := mkAttempt {
  lenBef : nat;
  stateBef : option LoadingState;
  queryP : option QOutcome;
  thenP : option Settled;
  finallyP : option Settled
}.

(** The collection, the attempts made so far and the offsets the query
    function has been invoked with, in order. *)
Record World := mkWorld {
  col : Collection;
  attempts : list Attempt;
  queried : list nat
}.

(** ** The array-like view *)

(** [items c] is what reading [c[0] .. c[length-1]] gives; an index
    without a property reads as [undefined] ([None]). *)
Definition items (c : Collection) : list (option Item) :=
  (fun i => elems c !! i) <$> seq 0 (col_length c).

(** [Array.prototype.push.apply(col, items)]: store the arguments at
    [length], [length + 1], ... and then set [length]. *)
Fixpoint store_from (n : nat) (xs : list Item) (m : gmap nat Item) : gmap nat Item :=
  match xs with
  | [] => m
  | x :: xs' => store_from (S n) xs' (<[n := x]> m)
  end.

Definition push (c : Collection) (xs : list Item) : Collection :=
  {| elems := store_from (col_length c) xs (elems c);
     col_length := col_length c + length xs;
     loadingState := loadingState c;
     moreQ := moreQ c |}.

Definition set_length (n : nat) (c : Collection) : Collection :=
  {| elems := elems c; col_length := n;
     loadingState := loadingState c; moreQ := moreQ c |}.

Definition set_loadingState (s : LoadingState) (c : Collection) : Collection :=
  {| elems := elems c; col_length := col_length c;
     loadingState := Some s; moreQ := moreQ c |}.

Definition set_moreQ (p : option PromiseRef) (c : Collection) : Collection :=
  {| elems := elems c; col_length := col_length c;
     loadingState := loadingState c; moreQ := p |}.

(** [stateBef === 'loading'] *)
Definition is_loading (s : option LoadingState) : bool :=
  match s with
  | Some Loading => true
  | _ => false
  end.

(** ** The callbacks of [more] *)

(** [function(items) { push; lenAf; loadingState = 'loaded'; return {..} }] *)
Definition onItems (lenBef : nat) (stateBef : option LoadingState)
    (xs : list Item) (c : Collection) : Collection * Value :=
  let c1 := push c xs in
  let lenAf := col_length c1 in
  let c2 := set_loadingState Loaded c1 in
  (c2, VResult {| r_items := xs;
                  oldLength := lenBef;
                  newLength := lenAf;
                  firstSuccessfulQuery := is_loading stateBef && (0 <? lenAf) |}).

(** [function(err) { col.loadingState = 'failed'; return err; }] *)
Definition onErr (err : Err) (c : Collection) : Collection * Value :=
  (set_loadingState Failed c, VErr err).

(** [function() { col.moreQ = null; }] *)
Definition onFinally (c : Collection) : Collection :=
  set_moreQ None c.

(** ** The methods *)

Definition new_attempt (lenBef : nat) (stateBef : option LoadingState) : Attempt :=
  {| lenBef := lenBef; stateBef := stateBef;
     queryP := None; thenP := None; finallyP := None |}.

(** [Collection.prototype.more]: returns the promise and the new world. *)
Definition more (w : World) : PromiseRef * World :=
  match moreQ (col w) with
  | Some p => (p, w)
  | None =>
      let lenBef := col_length (col w) in
      let stateBef := loadingState (col w) in
      let p := length (attempts w) in
      (p, {| col := set_moreQ (Some p) (col w);
             attempts := attempts w ++ [new_attempt lenBef stateBef];
             queried := queried w ++ [lenBef] |})
  end.

(** [Collection.prototype.refresh] *)
Definition refresh (w : World) : PromiseRef * World :=
  more {| col := set_loadingState Loading (set_length 0 (col w));
          attempts := attempts w;
          queried := queried w |}.

(** [new Collection(query, loadNow)]; [loadNow] is [None] when the
    argument is omitted. *)
Definition empty_world : World :=
  {| col := {| elems := ∅; col_length := 0; loadingState := None; moreQ := None |};
     attempts := [];
     queried := [] |}.

(** [typeof loadNow === 'undefined' || loadNow] *)
Definition autostart (loadNow : option bool) : bool :=
  match loadNow with
  | None => true
  | Some b => b
  end.

Definition new_Collection (loadNow : option bool) : World :=
  if autostart loadNow then snd (refresh empty_world) else empty_world.

(** ** Events *)

Inductive event :=
  | CallMore
  | CallRefresh
  | QuerySettles (a : PromiseRef) (o : QOutcome)
  | RunThen (a : PromiseRef)
  | RunFinally (a : PromiseRef).

Definition with_queryP (o : QOutcome) (t : Attempt) : Attempt :=
  {| lenBef := lenBef t; stateBef := stateBef t;
     queryP := Some o; thenP := thenP t; finallyP := finallyP t |}.

Definition with_thenP (s : Settled) (t : Attempt) : Attempt :=
  {| lenBef := lenBef t; stateBef := stateBef t;
     queryP := queryP t; thenP := Some s; finallyP := finallyP t |}.

Definition with_finallyP (s : Settled) (t : Attempt) : Attempt :=
  {| lenBef := lenBef t; stateBef := stateBef t;
     queryP := queryP t; thenP := thenP t; finallyP := Some s |}.

(** The handler [then] selects for the outcome of the query. *)
Definition run_handler (t : Attempt) (o : QOutcome) (c : Collection)
    : Collection * Value :=
  match o with
  | QOk xs => onItems (lenBef t) (stateBef t) xs c
  | QErr err => onErr err c
  end.

(** One event.  A promise settles once; the reaction of [then] runs once
    after the query promise has settled and fulfils the [then] promise
    with what the handler returns; the reaction of [finally] runs once
    after that and passes the settlement on to the promise [more]
    returned.  That promise is settled here in the event that runs the
    [finally] callback; an engine settles it a few ticks later, which
    delays when its holders see the value and changes neither the value
    nor the collection.  [None]: the event cannot happen in [w]. *)
Definition step (w : World) (e : event) : option World :=
  match e with
  | CallMore => Some (snd (more w))
  | CallRefresh => Some (snd (refresh w))
  | QuerySettles a o =>
      match attempts w !! a with
      | Some t =>
          match queryP t with
          | None => Some {| col := col w;
                            attempts := <[a := with_queryP o t]> (attempts w);
                            queried := queried w |}
          | Some _ => None
          end
      | None => None
      end
  | RunThen a =>
      match attempts w !! a with
      | Some t =>
          match queryP t, thenP t with
          | Some o, None =>
              let '(c, v) := run_handler t o (col w) in
              Some {| col := c;
                      attempts := <[a := with_thenP (Fulfilled v) t]> (attempts w);
                      queried := queried w |}
          | _, _ => None
          end
      | None => None
      end
  | RunFinally a =>
      match attempts w !! a with
      | Some t =>
          match thenP t, finallyP t with
          | Some s, None =>
              Some {| col := onFinally (col w);
                      attempts := <[a := with_finallyP s t]> (attempts w);
                      queried := queried w |}
          | _, _ => None
          end
      | None => None
      end
  end.

Fixpoint run (w : World) (evs : list event) : option World :=
  match evs with
  | [] => Some w
  | e :: evs' =>
      match step w e with
      | Some w' => run w' evs'
      | None => None
      end
  end.

(** Worlds that arise from a constructor call followed by events. *)
Definition reachable (w : World) : Prop :=
  exists loadNow evs, run (new_Collection loadNow) evs = Some w.

(** What a holder of the promise [p] returned by [more]/[refresh] sees. *)
Definition settlement (w : World) (p : PromiseRef) : option Settled :=
  match attempts w !! p with
  | Some t => finallyP t
  | None => None
  end.

(** What the [then] promise of attempt [a] has been fulfilled with. *)
Definition handler_result (w : World) (a : PromiseRef) : option Settled :=
  match attempts w !! a with
  | Some t => thenP t
  | None => None
  end.

(** The world after the events [evs]; [w] itself if they cannot happen. *)
Definition exec (w : World) (evs : list event) : World :=
  match run w evs with
  | Some w' => w'
  | None => w
  end.

(** The events of one attempt that runs to completion. *)
Definition load_ok (a : PromiseRef) (xs : list Item) : list event :=
  [QuerySettles a (QOk xs); RunThen a; RunFinally a].

Definition load_err (a : PromiseRef) (err : Err) : list event :=
  [QuerySettles a (QErr err); RunThen a; RunFinally a].

(** ** Invariants of reachable worlds *)

(** What the chain of one attempt can look like, given the collection:
    the promises settle in order, the promise in [moreQ] is the one whose
    [finally] callback has not run, the handlers' return value is the one
    the source computes from the captured variables, and an attempt that
    captured ['loading'] finds the collection empty. *)
Record attempt_ok (c : Collection) (a : PromiseRef) (t : Attempt) : Prop := {
  ok_current : finallyP t = None <-> moreQ c = Some a;
  ok_then_after_query : queryP t = None -> thenP t = None;
  ok_finally_after_then : thenP t = None -> finallyP t = None;
  ok_passthrough : forall s, finallyP t = Some s -> thenP t = Some s;
  ok_err : forall err s, queryP t = Some (QErr err) -> thenP t = Some s ->
      s = Fulfilled (VErr err);
  ok_result : forall xs s, queryP t = Some (QOk xs) -> thenP t = Some s ->
      exists r, s = Fulfilled (VResult r) /\ r_items r = xs /\
        oldLength r = lenBef t /\
        firstSuccessfulQuery r = is_loading (stateBef t) && (0 <? newLength r) /\
        (stateBef t = Some Loading -> newLength r = length xs);
  ok_loading_empty : thenP t = None -> stateBef t = Some Loading -> col_length c = 0
}.

Record wf (w : World) : Prop := {
  wf_attempts : forall a t, attempts w !! a = Some t -> attempt_ok (col w) a t;
  wf_moreQ : forall p, moreQ (col w) = Some p -> p < length (attempts w);
  wf_loading : loadingState (col w) = Some Loading -> col_length (col w) = 0;
  wf_queried : queried w = lenBef <$> attempts w
}.

(** An attempt is outstanding while its [finally] callback has not run. *)
Definition outstanding (w : World) (a : PromiseRef) : Prop :=
  exists t, attempts w !! a = Some t /\ finallyP t = None.

(** Events that are calls to [refresh]. *)
Definition is_refresh (e : event) : bool :=
  match e with
  | CallRefresh => true
  | _ => false
  end.

(** The event that runs the [finally] callback of attempt [p]. *)
Definition runs_finally (p : PromiseRef) (e : event) : bool :=
  match e with
  | RunFinally a => Nat.eqb a p
  | _ => false
  end.

Definition no_refresh (evs : list event) : bool :=
  forallb (fun e => negb (is_refresh e)) evs.

(** [since_refresh b evs]: after the events [evs], a [refresh] has been
    called and no handler of [then] has run since; [b] is the same
    question before [evs]. *)
Fixpoint since_refresh (b : bool) (evs : list event) : bool :=
  match evs with
  | [] => b
  | CallRefresh :: evs' => since_refresh true evs'
  | RunThen _ :: evs' => since_refresh false evs'
  | _ :: evs' => since_refresh b evs'
  end.

(** [t'] is a later state of the attempt [t]: the captured variables are
    the same and a settled promise keeps its settlement. *)
Definition extends (t t' : Attempt) : Prop :=
  lenBef t' = lenBef t /\ stateBef t' = stateBef t /\
  (forall o, queryP t = Some o -> queryP t' = Some o) /\
  (forall s, thenP t = Some s -> thenP t' = Some s) /\
  (forall s, finallyP t = Some s -> finallyP t' = Some s).

(** The handler of attempt [a] can run: its query promise has settled
    with [o] and the reaction of [then] has not run yet. *)
Definition awaiting_then (w : World) (a : PromiseRef) (o : QOutcome) : Prop :=
  exists t, attempts w !! a = Some t /\ queryP t = Some o /\ thenP t = None.

(** Loading the pages [pages] one after the other: a call to [more] and
    the events of its attempt, for each page; the first attempt is [a]. *)
Fixpoint load_pages (a : PromiseRef) (pages : list (list Item)) : list event :=
  match pages with
  | [] => []
  | xs :: rest => CallMore :: load_ok a xs ++ load_pages (S a) rest
  end.

(** The running lengths: where each page of [pages] starts when the
    first one starts at [n]. *)
Fixpoint offsets (n : nat) (pages : list (list Item)) : list nat :=
  match pages with
  | [] => []
  | xs :: rest => n :: offsets (n + length xs) rest
  end.

(** No attempt has snapshotted ['loading'] and the state is not
    ['loading']. *)
Definition never_loading (w : World) : Prop :=
  loadingState (col w) <> Some Loading /\
  forall a t, attempts w !! a = Some t -> stateBef t <> Some Loading.

(** ** The array-like view and [push] *)

Lemma store_from_lookup_lt (xs : list Item) : forall n m i,
  i < n -> store_from n xs m !! i = m !! i.
Proof.
  induction xs as [|x xs IH]; intros n m i Hi; simpl; [done|].
  rewrite IH by lia. apply lookup_insert_ne. lia.
Qed.

Lemma store_from_view (xs : list Item) : forall n m,
  (fun i => store_from n xs m !! i) <$> seq n (length xs) = Some <$> xs.
Proof.
  induction xs as [|x xs IH]; intros n m; simpl; [done|].
  rewrite store_from_lookup_lt by lia.
  rewrite lookup_insert_eq. f_equal. apply IH.
Qed.

Lemma length_items (c : Collection) : length (items c) = col_length c.
Proof. unfold items. by rewrite length_fmap, length_seq. Qed.

Lemma items_push (c : Collection) (xs : list Item) :
  items (push c xs) = items c ++ (Some <$> xs).
Proof.
  unfold items, push; simpl.
  rewrite seq_app, fmap_app. f_equal.
  - apply list_fmap_ext. intros k i Hk.
    apply lookup_seq in Hk as [-> Hlt]. apply store_from_lookup_lt. lia.
  - apply store_from_view.
Qed.

Lemma items_set_length_0 (c : Collection) : items (set_length 0 c) = [].
Proof. reflexivity. Qed.

Lemma items_set_loadingState (s : LoadingState) (c : Collection) :
  items (set_loadingState s c) = items c.
Proof. reflexivity. Qed.

(** ** Preservation of the invariant *)

Lemma lookup_insert_cases {A} (l : list A) (a b : nat) (x y : A) :
  <[a := x]> l !! b = Some y ->
  (b = a /\ y = x) \/ (b <> a /\ l !! b = Some y).
Proof.
  intros H. destruct (decide (b = a)) as [->|Hne].
  - left. split; [done|].
    assert (a < length l) as Hlt.
    { apply lookup_lt_Some in H. by rewrite length_insert in H. }
    rewrite list_lookup_insert_eq in H by done. congruence.
  - right. split; [done|]. by rewrite list_lookup_insert_ne in H.
Qed.

Lemma wf_empty_world : wf empty_world.
Proof.
  split; simpl; try done.
Qed.

Lemma wf_more (w : World) : wf w -> wf (snd (more w)).
Proof.
  intros Hw. unfold more. destruct (moreQ (col w)) as [p|] eqn:Hq; [done|].
  simpl. split; simpl.
  - intros a t Ha. apply lookup_app_Some in Ha as [Ha|[Hge Ha]].
    + pose proof (wf_attempts w Hw a t Ha) as Hok.
      assert (finallyP t <> None) as Hfin.
      { intros Hn. apply (ok_current _ _ _ Hok) in Hn. congruence. }
      apply lookup_lt_Some in Ha as Hlt.
      destruct Hok as [Hc ? Hft ? ? ? ?]. split; simpl; try done.
      split; [done|]. intros [=]. lia.
    + apply list_lookup_singleton_Some in Ha as [Ha <-].
      assert (a = length (attempts w)) as -> by lia.
      split; simpl; try done.
      intros _ Hl. by apply (wf_loading w Hw).
  - intros p [= <-]. rewrite length_app. simpl. lia.
  - apply (wf_loading w Hw).
  - rewrite fmap_app. simpl. by rewrite (wf_queried w Hw).
Qed.

Lemma wf_refresh (w : World) : wf w -> wf (snd (refresh w)).
Proof.
  intros Hw. unfold refresh. apply wf_more. split; simpl.
  - intros a t Ha. destruct (wf_attempts w Hw a t Ha). by split.
  - apply (wf_moreQ w Hw).
  - done.
  - apply (wf_queried w Hw).
Qed.

Lemma handler_moreQ (t : Attempt) (o : QOutcome) (c : Collection) :
  moreQ (fst (run_handler t o c)) = moreQ c.
Proof. by destruct o. Qed.

Lemma handler_not_loading (t : Attempt) (o : QOutcome) (c : Collection) :
  loadingState (fst (run_handler t o c)) <> Some Loading.
Proof. by destruct o. Qed.

Lemma fmap_lenBef_insert (l : list Attempt) (a : nat) (t t' : Attempt) :
  l !! a = Some t -> lenBef t' = lenBef t ->
  lenBef <$> <[a := t']> l = lenBef <$> l.
Proof.
  intros Ha Hl. rewrite list_fmap_insert, Hl.
  apply list_insert_id. by rewrite list_lookup_fmap, Ha.
Qed.

Lemma wf_step (w w' : World) (e : event) :
  wf w -> step w e = Some w' -> wf w'.
Proof.
  intros Hw Hs. destruct e as [| |a o|a|a]; simpl in Hs.
  - injection Hs as <-. by apply wf_more.
  - injection Hs as <-. by apply wf_refresh.
  - destruct (attempts w !! a) as [t|] eqn:Ha; [|done].
    destruct (queryP t) eqn:Hqp; [done|]. injection Hs as <-.
    pose proof (wf_attempts w Hw a t Ha) as Hok.
    pose proof (ok_then_after_query _ _ _ Hok Hqp) as Hth.
    split; simpl.
    + intros b tb Hb. apply lookup_insert_cases in Hb as [[-> ->]|[Hne Hb]].
      * destruct Hok. split; simpl; try done; congruence.
      * by apply (wf_attempts w Hw).
    + intros p Hp. rewrite length_insert. by apply (wf_moreQ w Hw).
    + apply (wf_loading w Hw).
    + rewrite (fmap_lenBef_insert _ _ t) by done. apply (wf_queried w Hw).
  - destruct (attempts w !! a) as [t|] eqn:Ha; [|done].
    destruct (queryP t) as [o|] eqn:Hqp; [|done].
    destruct (thenP t) eqn:Hth; [done|].
    destruct (run_handler t o (col w)) as [c v] eqn:Hh. injection Hs as <-.
    pose proof (wf_attempts w Hw a t Ha) as Hok.
    pose proof (ok_finally_after_then _ _ _ Hok Hth) as Hfin.
    pose proof (proj1 (ok_current _ _ _ Hok) Hfin) as Hcur.
    assert (moreQ c = moreQ (col w)) as Hmq.
    { by rewrite <- (handler_moreQ t o (col w)), Hh. }
    split; simpl.
    + intros b tb Hb. apply lookup_insert_cases in Hb as [[-> ->]|[Hne Hb]].
      * split; simpl; try done.
        -- rewrite Hmq. apply Hok.
        -- congruence.
        -- congruence.
        -- intros err s Hq [= <-]. rewrite Hqp in Hq. injection Hq as ->.
           simpl in Hh. by injection Hh as _ <-.
        -- intros xs s Hq [= <-]. rewrite Hqp in Hq. injection Hq as ->.
           simpl in Hh. unfold onItems in Hh. injection Hh as _ <-.
           eexists. split; [done|]. simpl. repeat split; try done.
           intros Hl. by rewrite (ok_loading_empty _ _ _ Hok Hth Hl).
      * pose proof (wf_attempts w Hw b tb Hb) as Hokb.
        destruct Hokb as [Hc ? Hft ? ? ? ?]. split; try done.
        -- by rewrite Hmq.
        -- intros Hn _. apply Hft, Hc in Hn. congruence.
    + intros p Hp. rewrite length_insert. apply (wf_moreQ w Hw). congruence.
    + intros Hl. exfalso. apply (handler_not_loading t o (col w)).
      by rewrite Hh.
    + rewrite (fmap_lenBef_insert _ _ t) by done. apply (wf_queried w Hw).
  - destruct (attempts w !! a) as [t|] eqn:Ha; [|done].
    destruct (thenP t) as [s|] eqn:Hth; [|done].
    destruct (finallyP t) eqn:Hfin; [done|]. injection Hs as <-.
    pose proof (wf_attempts w Hw a t Ha) as Hok.
    pose proof (proj1 (ok_current _ _ _ Hok) Hfin) as Hcur.
    split; simpl.
    + intros b tb Hb. apply lookup_insert_cases in Hb as [[-> ->]|[Hne Hb]].
      * destruct Hok. split; simpl; try done; try congruence.
      * pose proof (wf_attempts w Hw b tb Hb) as Hokb.
        destruct Hokb as [Hc ? ? ? ? ? ?]. split; try done.
        simpl. split; [|done]. intros Hn. apply Hc in Hn. congruence.
    + done.
    + apply (wf_loading w Hw).
    + rewrite (fmap_lenBef_insert _ _ t) by done. apply (wf_queried w Hw).
Qed.

Lemma wf_run (evs : list event) : forall w w',
  wf w -> run w evs = Some w' -> wf w'.
Proof.
  induction evs as [|e evs IH]; intros w w' Hw Hr; simpl in Hr.
  - by injection Hr as <-.
  - destruct (step w e) as [w1|] eqn:Hs; [|done].
    eapply IH; [|done]. by eapply wf_step.
Qed.

Lemma wf_new_Collection (loadNow : option bool) : wf (new_Collection loadNow).
Proof.
  destruct loadNow as [[]|]; unfold new_Collection;
    try apply wf_refresh; apply wf_empty_world.
Qed.

Lemma reachable_wf (w : World) : reachable w -> wf w.
Proof.
  intros (loadNow & evs & Hr). eapply wf_run; [|done]. apply wf_new_Collection.
Qed.

Lemma run_app (evs1 evs2 : list event) : forall w,
  run w (evs1 ++ evs2) =
    match run w evs1 with Some w1 => run w1 evs2 | None => None end.
Proof.
  induction evs1 as [|e evs1 IH]; intros w; simpl; [done|].
  destruct (step w e); [apply IH|done].
Qed.

Lemma reachable_run (w w' : World) (evs : list event) :
  reachable w -> run w evs = Some w' -> reachable w'.
Proof.
  intros (loadNow & evs0 & Hr) Hr'. exists loadNow, (evs0 ++ evs).
  by rewrite run_app, Hr.
Qed.

Lemma reachable_step (w w' : World) (e : event) :
  reachable w -> step w e = Some w' -> reachable w'.
Proof.
  intros Hw Hs. apply (reachable_run w w' [e]); [done|]. simpl. by rewrite Hs.
Qed.

(** ** The two branches of [more] *)

Lemma more_coalesced (w : World) (p : PromiseRef) :
  moreQ (col w) = Some p -> more w = (p, w).
Proof. intros H. unfold more. by rewrite H. Qed.

Lemma more_fresh (w : World) :
  moreQ (col w) = None ->
  more w = (length (attempts w),
            {| col := set_moreQ (Some (length (attempts w))) (col w);
               attempts := attempts w ++
                 [new_attempt (col_length (col w)) (loadingState (col w))];
               queried := queried w ++ [col_length (col w)] |}).
Proof. intros H. unfold more. by rewrite H. Qed.

Lemma lookup_new_attempt (l : list Attempt) (t : Attempt) :
  (l ++ [t]) !! length l = Some t.
Proof. rewrite lookup_app_r by lia. by rewrite Nat.sub_diag. Qed.

(** ** Attempts only move forward *)

Lemma extends_refl (t : Attempt) : extends t t.
Proof. by repeat split. Qed.

Lemma extends_trans (t1 t2 t3 : Attempt) :
  extends t1 t2 -> extends t2 t3 -> extends t1 t3.
Proof.
  intros (Hl1 & Hs1 & Hq1 & Ht1 & Hf1) (Hl2 & Hs2 & Hq2 & Ht2 & Hf2).
  repeat split; try congruence; eauto.
Qed.

Lemma more_extends (w : World) (a : PromiseRef) (t : Attempt) :
  attempts w !! a = Some t -> attempts (snd (more w)) !! a = Some t.
Proof.
  intros Ha. unfold more. destruct (moreQ (col w)); simpl; [done|].
  by apply lookup_app_l_Some.
Qed.

Lemma step_extends (w w' : World) (e : event) (a : PromiseRef) (t : Attempt) :
  step w e = Some w' -> attempts w !! a = Some t ->
  exists t', attempts w' !! a = Some t' /\ extends t t'.
Proof.
  intros Hs Ha. destruct e as [| |b o|b|b]; simpl in Hs.
  - injection Hs as <-. exists t. split; [by apply more_extends|apply extends_refl].
  - injection Hs as <-. exists t. split; [|apply extends_refl].
    unfold refresh. by apply more_extends.
  - destruct (attempts w !! b) as [tb|] eqn:Hb; [|done].
    destruct (queryP tb) eqn:Hq; [done|]. injection Hs as <-. simpl.
    destruct (decide (a = b)) as [->|Hne].
    + rewrite list_lookup_insert_eq by (by eapply lookup_lt_Some).
      assert (tb = t) as -> by congruence.
      eexists. split; [done|]. repeat split; simpl; try done. congruence.
    + rewrite list_lookup_insert_ne by done.
      exists t. split; [done|apply extends_refl].
  - destruct (attempts w !! b) as [tb|] eqn:Hb; [|done].
    destruct (queryP tb) as [o|] eqn:Hq; [|done].
    destruct (thenP tb) eqn:Hth; [done|].
    destruct (run_handler tb o (col w)) as [c v]. injection Hs as <-. simpl.
    destruct (decide (a = b)) as [->|Hne].
    + rewrite list_lookup_insert_eq by (by eapply lookup_lt_Some).
      assert (tb = t) as -> by congruence.
      eexists. split; [done|]. repeat split; simpl; try done. congruence.
    + rewrite list_lookup_insert_ne by done.
      exists t. split; [done|apply extends_refl].
  - destruct (attempts w !! b) as [tb|] eqn:Hb; [|done].
    destruct (thenP tb) as [s|] eqn:Hth; [|done].
    destruct (finallyP tb) eqn:Hfin; [done|]. injection Hs as <-. simpl.
    destruct (decide (a = b)) as [->|Hne].
    + rewrite list_lookup_insert_eq by (by eapply lookup_lt_Some).
      assert (tb = t) as -> by congruence.
      eexists. split; [done|]. repeat split; simpl; try done. congruence.
    + rewrite list_lookup_insert_ne by done.
      exists t. split; [done|apply extends_refl].
Qed.

Lemma run_extends (evs : list event) : forall w w' a t,
  run w evs = Some w' -> attempts w !! a = Some t ->
  exists t', attempts w' !! a = Some t' /\ extends t t'.
Proof.
  induction evs as [|e evs IH]; intros w w' a t Hr Ha; simpl in Hr.
  - injection Hr as <-. exists t. split; [done|apply extends_refl].
  - destruct (step w e) as [w1|] eqn:Hs; [|done].
    destruct (step_extends _ _ _ _ _ Hs Ha) as (t1 & Ha1 & He1).
    destruct (IH _ _ _ _ Hr Ha1) as (t2 & Ha2 & He2).
    exists t2. split; [done|]. by eapply extends_trans.
Qed.

(** ** The promise in [moreQ] *)

(** Only the [finally] callback of the attempt in [moreQ] can run, and
    only it changes [moreQ]; no other event invokes the query. *)
Lemma step_keeps_moreQ (w w' : World) (e : event) (p : PromiseRef) :
  wf w -> moreQ (col w) = Some p -> step w e = Some w' -> e <> RunFinally p ->
  moreQ (col w') = Some p /\ queried w' = queried w.
Proof.
  intros Hw Hp Hs Hne. destruct e as [| |b o|b|b]; simpl in Hs.
  - rewrite (more_coalesced w p Hp) in Hs. by injection Hs as <-.
  - unfold refresh in Hs. rewrite (more_coalesced _ p) in Hs by done.
    by injection Hs as <-.
  - destruct (attempts w !! b) as [tb|]; [|done].
    destruct (queryP tb); [done|]. by injection Hs as <-.
  - destruct (attempts w !! b) as [tb|]; [|done].
    destruct (queryP tb) as [o|]; [|done]. destruct (thenP tb); [done|].
    destruct (run_handler tb o (col w)) as [c v] eqn:Hh. injection Hs as <-.
    simpl. split; [|done].
    by rewrite <- Hp, <- (handler_moreQ tb o (col w)), Hh.
  - destruct (attempts w !! b) as [tb|] eqn:Hb; [|done].
    destruct (thenP tb); [|done]. destruct (finallyP tb) eqn:Hfin; [done|].
    exfalso. apply Hne. f_equal.
    apply (ok_current _ _ _ (wf_attempts w Hw b tb Hb)) in Hfin. congruence.
Qed.

Lemma run_keeps_moreQ (evs : list event) : forall w w' p,
  wf w -> moreQ (col w) = Some p -> run w evs = Some w' ->
  RunFinally p ∉ evs ->
  moreQ (col w') = Some p /\ queried w' = queried w.
Proof.
  induction evs as [|e evs IH]; intros w w' p Hw Hp Hr Hni; simpl in Hr.
  - by injection Hr as <-.
  - destruct (step w e) as [w1|] eqn:Hs; [|done].
    apply not_elem_of_cons in Hni as [Hne Hni].
    destruct (step_keeps_moreQ w w1 e p) as [Hp1 Hq1]; try done.
    destruct (IH w1 w' p) as [Hp2 Hq2]; try done.
    + by eapply wf_step.
    + split; [done|]. congruence.
Qed.

Lemma not_runs_finally (evs : list event) (p : PromiseRef) :
  existsb (runs_finally p) evs = false -> RunFinally p ∉ evs.
Proof.
  induction evs as [|e evs IH]; simpl; intros He Hin.
  - by apply elem_of_nil in Hin.
  - apply orb_false_iff in He as [He1 He2].
    apply elem_of_cons in Hin as [<-|Hin]; [|by apply IH].
    simpl in He1. by rewrite Nat.eqb_refl in He1.
Qed.

Lemma settlement_stable (w w' : World) (evs : list event) (p : PromiseRef)
    (s : Settled) :
  run w evs = Some w' -> settlement w p = Some s -> settlement w' p = Some s.
Proof.
  unfold settlement. intros Hr Hs.
  destruct (attempts w !! p) as [t|] eqn:Hp; [|done].
  destruct (run_extends _ _ _ _ _ Hr Hp) as (t' & -> & He).
  by apply He.
Qed.

(** ** Single flight *)

(** C1. A call to [more] made while [moreQ] is set returns the promise in
    [moreQ] and changes nothing, so the query is not invoked.  This stays
    so over any events in which the [finally] callback of that attempt
    does not run:
    every such call returns the same promise and the log of query
    invocations does not grow.  The callers hold one promise, and a
    promise keeps the settlement it got, so they observe one result. *)
Theorem more_single_flight :
  (forall (w : World) (p : PromiseRef),
      moreQ (col w) = Some p -> more w = (p, w)) /\
  (forall (w w' : World) (p : PromiseRef) (evs : list event),
      reachable w -> moreQ (col w) = Some p ->
      run w evs = Some w' -> existsb (runs_finally p) evs = false ->
      more w' = (p, w') /\ queried w' = queried w /\
      fst (more w') = fst (more w)) /\
  (forall (w w' : World) (p : PromiseRef) (evs : list event) (s : Settled),
      run w evs = Some w' -> settlement w p = Some s ->
      settlement w' p = Some s).
Proof.
  split; [|split].
  - apply more_coalesced.
  - intros w w' p evs Hw Hp Hr Hni.
    destruct (run_keeps_moreQ evs w w' p) as [Hp' Hq]; try done.
    { by apply reachable_wf. }
    { by apply not_runs_finally. }
    rewrite (more_coalesced w' p Hp'), (more_coalesced w p Hp). by repeat split.
  - intros w w' p evs s. apply settlement_stable.
Qed.

(** ** [refresh] *)

(** C5. Whatever the state, when [refresh] returns the collection is
    empty ([length] is 0) and [loadingState] is ['loading']; in a
    reachable world the promise it returns has not settled. *)
Theorem refresh_resets_synchronously (w : World) :
  col_length (col (snd (refresh w))) = 0 /\
  items (col (snd (refresh w))) = [] /\
  loadingState (col (snd (refresh w))) = Some Loading /\
  (reachable w -> settlement (snd (refresh w)) (fst (refresh w)) = None).
Proof.
  unfold refresh, more; simpl.
  destruct (moreQ (col w)) as [p|] eqn:Hp; simpl.
  - repeat split; try done. intros Hw. apply reachable_wf in Hw.
    unfold settlement; simpl.
    destruct (attempts w !! p) as [t|] eqn:Ha; [|done].
    by apply (ok_current _ _ _ (wf_attempts w Hw p t Ha)).
  - repeat split; try done. intros _. unfold settlement; simpl.
    by rewrite lookup_new_attempt.
Qed.

(** ** Running the callbacks *)

Lemma step_RunThen (w : World) (a : PromiseRef) (t : Attempt) (o : QOutcome) :
  attempts w !! a = Some t -> queryP t = Some o -> thenP t = None ->
  step w (RunThen a) =
    Some {| col := fst (run_handler t o (col w));
            attempts :=
              <[a := with_thenP (Fulfilled (snd (run_handler t o (col w)))) t]>
                (attempts w);
            queried := queried w |}.
Proof.
  intros Ha Hq Hth. simpl. rewrite Ha, Hq, Hth.
  by destruct (run_handler t o (col w)).
Qed.

Lemma step_RunFinally (w : World) (a : PromiseRef) (t : Attempt) (s : Settled) :
  attempts w !! a = Some t -> thenP t = Some s -> finallyP t = None ->
  step w (RunFinally a) =
    Some {| col := onFinally (col w);
            attempts := <[a := with_finallyP s t]> (attempts w);
            queried := queried w |}.
Proof. intros Ha Hth Hfin. simpl. by rewrite Ha, Hth, Hfin. Qed.

Lemma handler_result_insert (w : World) (a : PromiseRef) (t t' : Attempt)
    (c : Collection) (q : list nat) :
  attempts w !! a = Some t ->
  handler_result {| col := c; attempts := <[a := t']> (attempts w); queried := q |} a
    = thenP t'.
Proof.
  intros Ha. unfold handler_result; simpl.
  by rewrite list_lookup_insert_eq by (by eapply lookup_lt_Some).
Qed.

Lemma settlement_insert (w : World) (a : PromiseRef) (t t' : Attempt)
    (c : Collection) (q : list nat) :
  attempts w !! a = Some t ->
  settlement {| col := c; attempts := <[a := t']> (attempts w); queried := q |} a
    = finallyP t'.
Proof.
  intros Ha. unfold settlement; simpl.
  by rewrite list_lookup_insert_eq by (by eapply lookup_lt_Some).
Qed.

(** Once the handler of an attempt has returned, the [finally] callback
    can run as long as the promise [more] returned is unsettled, whatever
    happened in between; it passes the handler's value on and clears
    [moreQ]. *)
Lemma finally_runs (w w' : World) (evs : list event) (a : PromiseRef)
    (s : Settled) :
  handler_result w a = Some s -> run w evs = Some w' ->
  settlement w' a = None ->
  exists w'', step w' (RunFinally a) = Some w'' /\
    settlement w'' a = Some s /\ moreQ (col w'') = None /\
    col_length (col w'') = col_length (col w') /\
    loadingState (col w'') = loadingState (col w') /\
    queried w'' = queried w'.
Proof.
  intros Hh Hr Hs. unfold handler_result in Hh. unfold settlement in Hs.
  destruct (attempts w !! a) as [t|] eqn:Ha; [|done].
  destruct (run_extends _ _ _ _ _ Hr Ha) as (t' & Ha' & He).
  rewrite Ha' in Hs. destruct He as (_ & _ & _ & Hth & _).
  eexists. split; [by apply (step_RunFinally w' a t' s); auto|].
  split; [|done]. by erewrite settlement_insert.
Qed.

(** ** A fresh load that succeeds *)

(** C2. With no load outstanding, [more] snapshots [length] and
    [loadingState], invokes the query with the snapshotted length and
    stores the new promise in [moreQ].  When the query has succeeded with
    [xs], whatever happened in between, the handler appends [xs] to the
    items in order, sets ['loaded'] and returns the record with [xs], the
    snapshotted length, the length after the append and
    [stateBef === 'loading' && lenAf > 0]; the promise [more] returned is
    then fulfilled with that record. *)
Theorem more_fresh_success (w : World) :
  moreQ (col w) = None ->
  let a := length (attempts w) in
  let lenBef0 := col_length (col w) in
  let stateBef0 := loadingState (col w) in
  let w1 := snd (more w) in
  fst (more w) = a /\
  queried w1 = queried w ++ [lenBef0] /\
  moreQ (col w1) = Some a /\
  attempts w1 !! a = Some (new_attempt lenBef0 stateBef0) /\
  forall (evs : list event) (w2 : World) (xs : list Item),
    run w1 evs = Some w2 -> awaiting_then w2 a (QOk xs) ->
    exists w3, step w2 (RunThen a) = Some w3 /\
      items (col w3) = items (col w2) ++ (Some <$> xs) /\
      loadingState (col w3) = Some Loaded /\
      let r := {| r_items := xs;
                  oldLength := lenBef0;
                  newLength := length (items (col w3));
                  firstSuccessfulQuery :=
                    is_loading stateBef0 && (0 <? length (items (col w3))) |} in
      handler_result w3 a = Some (Fulfilled (VResult r)) /\
      forall (evs' : list event) (w4 : World),
        run w3 evs' = Some w4 -> settlement w4 a = None ->
        exists w5, step w4 (RunFinally a) = Some w5 /\
          settlement w5 a = Some (Fulfilled (VResult r)).
Proof.
  intros Hq a lenBef0 stateBef0 w1. subst w1.
  rewrite (more_fresh w Hq); simpl.
  repeat split; try done; [apply lookup_new_attempt|].
  intros evs w2 xs Hr (t2 & Ha2 & Hq2 & Hth2).
  destruct (run_extends _ _ _ a _ Hr (lookup_new_attempt _ _))
    as (t2' & Ha2' & Hl & Hs & _).
  assert (t2' = t2) as -> by congruence. simpl in Hl, Hs.
  eexists. split; [by apply (step_RunThen w2 a t2 (QOk xs))|]. simpl.
  split; [apply items_push|]. split; [done|].
  assert (handler_result
    {| col := set_loadingState Loaded (push (col w2) xs);
       attempts := <[a := with_thenP
          (Fulfilled (VResult
            {| r_items := xs; oldLength := lenBef t2;
               newLength := col_length (col w2) + length xs;
               firstSuccessfulQuery :=
                 is_loading (stateBef t2) &&
                 (0 <? col_length (col w2) + length xs) |})) t2]> (attempts w2);
       queried := queried w2 |} a =
    Some (Fulfilled (VResult
      {| r_items := xs; oldLength := lenBef0;
         newLength := length (items (set_loadingState Loaded (push (col w2) xs)));
         firstSuccessfulQuery := is_loading stateBef0 &&
           (0 <? length (items (set_loadingState Loaded (push (col w2) xs)))) |})))
    as Hres.
  { erewrite handler_result_insert by done. simpl.
    rewrite length_items; simpl. subst lenBef0 stateBef0. by rewrite Hl, Hs. }
  split; [exact Hres|].
  intros evs' w4 Hr' Hs4.
  destruct (finally_runs _ _ _ _ _ Hres Hr' Hs4) as (w5 & Hst & Hset & _).
  by exists w5.
Qed.

(** ** A load that fails *)


(** ** The transitions of [loadingState] *)

Lemma more_col (w : World) :
  elems (col (snd (more w))) = elems (col w) /\
  col_length (col (snd (more w))) = col_length (col w) /\
  loadingState (col (snd (more w))) = loadingState (col w).
Proof. unfold more. by destruct (moreQ (col w)). Qed.

Lemma step_RunThen_inv (w w' : World) (a : PromiseRef) :
  step w (RunThen a) = Some w' ->
  exists t o, attempts w !! a = Some t /\ queryP t = Some o /\ thenP t = None /\
    w' = {| col := fst (run_handler t o (col w));
            attempts :=
              <[a := with_thenP (Fulfilled (snd (run_handler t o (col w)))) t]>
                (attempts w);
            queried := queried w |}.
Proof.
  intros Hs.
  destruct (attempts w !! a) as [t|] eqn:Ha; [|by simpl in Hs; rewrite Ha in Hs].
  destruct (queryP t) as [o|] eqn:Hq;
    [|by simpl in Hs; rewrite Ha, Hq in Hs].
  destruct (thenP t) eqn:Hth; [by simpl in Hs; rewrite Ha, Hq, Hth in Hs|].
  rewrite (step_RunThen w a t o) in Hs by done. injection Hs as <-.
  by exists t, o.
Qed.

Lemma step_RunFinally_inv (w w' : World) (a : PromiseRef) :
  step w (RunFinally a) = Some w' ->
  exists t s, attempts w !! a = Some t /\ thenP t = Some s /\ finallyP t = None /\
    w' = {| col := onFinally (col w);
            attempts := <[a := with_finallyP s t]> (attempts w);
            queried := queried w |}.
Proof.
  intros Hs.
  destruct (attempts w !! a) as [t|] eqn:Ha; [|by simpl in Hs; rewrite Ha in Hs].
  destruct (thenP t) as [s|] eqn:Hth;
    [|by simpl in Hs; rewrite Ha, Hth in Hs].
  destruct (finallyP t) eqn:Hf; [by simpl in Hs; rewrite Ha, Hth, Hf in Hs|].
  rewrite (step_RunFinally w a t s) in Hs by done. injection Hs as <-.
  by exists t, s.
Qed.

Lemma step_QuerySettles_col (w w' : World) (a : PromiseRef) (o : QOutcome) :
  step w (QuerySettles a o) = Some w' -> col w' = col w /\ queried w' = queried w.
Proof.
  simpl. destruct (attempts w !! a) as [t|]; [|done].
  destruct (queryP t); [done|]. by intros [= <-].
Qed.

(** C4, as the code has it.  [more] does not touch [loadingState]: with
    no load outstanding it leaves the state as it is and stores a pending
    promise in [moreQ].  The handler of an attempt sets ['loaded'] when
    the query succeeded and ['failed'] when it failed.  No other event
    changes the state except [refresh], which sets ['loading']. *)
Theorem loadingState_transitions :
  (forall w : World, moreQ (col w) = None ->
      loadingState (col (snd (more w))) = loadingState (col w) /\
      moreQ (col (snd (more w))) = Some (fst (more w)) /\
      settlement (snd (more w)) (fst (more w)) = None) /\
  (forall (w w' : World) (a : PromiseRef),
      step w (RunThen a) = Some w' ->
      (exists xs, awaiting_then w a (QOk xs) /\
                  loadingState (col w') = Some Loaded) \/
      (exists err, awaiting_then w a (QErr err) /\
                   loadingState (col w') = Some Failed)) /\
  (forall (w w' : World) (e : event),
      step w e = Some w' -> loadingState (col w') <> loadingState (col w) ->
      (e = CallRefresh /\ loadingState (col w') = Some Loading) \/
      (exists a, e = RunThen a /\
         (loadingState (col w') = Some Loaded \/
          loadingState (col w') = Some Failed))).
Proof.
  split; [|split].
  - intros w Hq. rewrite (more_fresh w Hq); simpl. repeat split.
    unfold settlement; simpl. by rewrite lookup_new_attempt.
  - intros w w' a Hs.
    destruct (step_RunThen_inv _ _ _ Hs) as (t & o & Ha & Hq & Hth & ->).
    destruct o as [xs|err]; [left; exists xs|right; exists err];
      (split; [by exists t|done]).
  - intros w w' e Hs Hne. destruct e as [| |a o|a|a].
    + simpl in Hs. injection Hs as <-. by destruct (more_col w) as (_ & _ & ?).
    + left. split; [done|]. simpl in Hs. injection Hs as <-.
      unfold refresh.
      by destruct (more_col {| col := set_loadingState Loading (set_length 0 (col w));
                               attempts := attempts w;
                               queried := queried w |}) as (_ & _ & ->).
    + destruct (step_QuerySettles_col _ _ _ _ Hs) as [Hc _]. by rewrite Hc in Hne.
    + right. exists a. split; [done|].
      destruct (step_RunThen_inv _ _ _ Hs) as (t & o & _ & _ & _ & ->).
      destruct o; simpl; auto.
    + destruct (step_RunFinally_inv _ _ _ Hs) as (t & s & _ & _ & _ & ->).
      by simpl in Hne.
Qed.

(** ** What [refresh] delegates *)

(** C6, as the code has it.  [refresh] resets [length] and
    [loadingState] and calls [more].  With no load outstanding, [more]
    invokes the query with offset 0, the reset length, and stores the new
    attempt's promise in [moreQ].  With a load outstanding, [more]
    returns the promise in [moreQ]: the query is not invoked, no attempt
    is added and [moreQ] is left as it is; the attempts, the outstanding
    one among them, are untouched. *)
Theorem refresh_delegates (w : World) :
  refresh w = more {| col := set_loadingState Loading (set_length 0 (col w));
                      attempts := attempts w;
                      queried := queried w |} /\
  (moreQ (col w) = None ->
     fst (refresh w) = length (attempts w) /\
     queried (snd (refresh w)) = queried w ++ [0] /\
     attempts (snd (refresh w)) = attempts w ++ [new_attempt 0 (Some Loading)] /\
     moreQ (col (snd (refresh w))) = Some (length (attempts w))) /\
  (forall p : PromiseRef, moreQ (col w) = Some p ->
     fst (refresh w) = p /\
     queried (snd (refresh w)) = queried w /\
     attempts (snd (refresh w)) = attempts w /\
     moreQ (col (snd (refresh w))) = Some p).
Proof.
  split; [done|]. split.
  - intros Hq. unfold refresh. by rewrite more_fresh.
  - intros p Hq. unfold refresh. by rewrite (more_coalesced _ p).
Qed.

(** ** Clearing [moreQ] *)

(** C7. After the handler of an attempt has run, on success or on
    failure, the [finally] callback can run as long as the promise of the
    attempt is unsettled, whatever calls to [more] and [refresh] were
    made in between.  Running it settles that promise and sets [moreQ] to
    [null], so the next [more] starts a fresh attempt and invokes the
    query with the current length.  In a reachable world a settled
    promise is never the one in [moreQ]. *)
Theorem finally_clears_moreQ :
  (forall (w w1 : World) (a : PromiseRef),
      step w (RunThen a) = Some w1 ->
      forall (evs : list event) (w2 : World),
        run w1 evs = Some w2 -> settlement w2 a = None ->
        exists w3, step w2 (RunFinally a) = Some w3 /\
          settlement w3 a <> None /\
          moreQ (col w3) = None /\
          fst (more w3) = length (attempts w3) /\
          queried (snd (more w3)) = queried w3 ++ [col_length (col w3)]) /\
  (forall (w w' : World) (a : PromiseRef),
      step w (RunFinally a) = Some w' -> moreQ (col w') = None) /\
  (forall (w : World) (p : PromiseRef),
      reachable w -> moreQ (col w) = Some p -> settlement w p = None).
Proof.
  split; [|split].
  - intros w w1 a Hs evs w2 Hr Hset.
    destruct (step_RunThen_inv _ _ _ Hs) as (t & o & Ha & Hq & Hth & ->).
    assert (handler_result
      {| col := fst (run_handler t o (col w));
         attempts :=
           <[a := with_thenP (Fulfilled (snd (run_handler t o (col w)))) t]>
             (attempts w);
         queried := queried w |} a =
      Some (Fulfilled (snd (run_handler t o (col w))))) as Hres.
    { by erewrite handler_result_insert. }
    destruct (finally_runs _ _ _ _ _ Hres Hr Hset)
      as (w3 & Hst & Hset3 & Hmq & _).
    exists w3. split; [done|]. split; [by rewrite Hset3|]. split; [done|].
    by rewrite (more_fresh w3 Hmq).
  - intros w w' a Hs.
    by destruct (step_RunFinally_inv _ _ _ Hs) as (t & s & _ & _ & _ & ->).
  - intros w p Hw Hp. apply reachable_wf in Hw.
    pose proof (wf_moreQ w Hw p Hp) as Hlt.
    apply lookup_lt_is_Some in Hlt as [t Ha].
    unfold settlement. rewrite Ha.
    by apply (ok_current _ _ _ (wf_attempts w Hw p t Ha)).
Qed.

(** ** How the items change *)

Lemma step_items (w w' : World) (e : event) :
  step w e = Some w' ->
  items (col w') = items (col w) \/
  (e = CallRefresh /\ items (col w') = []) \/
  (exists a xs, e = RunThen a /\ awaiting_then w a (QOk xs) /\
     items (col w') = items (col w) ++ (Some <$> xs)).
Proof.
  intros Hs. destruct e as [| |a o|a|a].
  - left. simpl in Hs. injection Hs as <-. unfold items.
    destruct (more_col w) as (-> & -> & _). done.
  - right; left. split; [done|]. simpl in Hs. injection Hs as <-.
    unfold refresh, items.
    by destruct (more_col {| col := set_loadingState Loading (set_length 0 (col w));
                             attempts := attempts w;
                             queried := queried w |}) as (_ & -> & _).
  - left. by destruct (step_QuerySettles_col _ _ _ _ Hs) as [-> _].
  - destruct (step_RunThen_inv _ _ _ Hs) as (t & o & Ha & Hq & Hth & ->).
    destruct o as [xs|err]; simpl.
    + right; right. exists a, xs. split; [done|]. split; [by exists t|].
      apply items_push.
    + by left.
  - left. by destruct (step_RunFinally_inv _ _ _ Hs) as (t & s & _ & _ & _ & ->).
Qed.

Lemma run_items_prefix (evs : list event) : forall w w',
  run w evs = Some w' -> no_refresh evs = true ->
  items (col w) `prefix_of` items (col w').
Proof.
  induction evs as [|e evs IH]; intros w w' Hr Hn; simpl in Hr.
  - by injection Hr as <-.
  - destruct (step w e) as [w1|] eqn:Hs; [|done].
    simpl in Hn. apply andb_true_iff in Hn as [He Hn].
    transitivity (items (col w1)); [|by apply IH].
    destruct (step_items _ _ _ Hs) as [->|[[-> _]|(a & xs & _ & _ & ->)]].
    + done.
    + done.
    + by apply prefix_app_r.
Qed.

(** C9. An event changes the items in two ways only: [refresh] empties
    them, and the handler of a successful load appends the batch it
    received, in order.  The handler of a failed load leaves the index
    properties and [length] as they are.  Over events without a
    [refresh] the items only grow: the earlier items are a prefix of the
    later ones and [length] does not decrease. *)
Theorem items_mutation :
  (forall (w w' : World) (e : event),
      step w e = Some w' ->
      items (col w') = items (col w) \/
      (e = CallRefresh /\ items (col w') = []) \/
      (exists a xs, e = RunThen a /\ awaiting_then w a (QOk xs) /\
         items (col w') = items (col w) ++ (Some <$> xs))) /\
  (forall (w w' : World) (a : PromiseRef) (err : Err),
      awaiting_then w a (QErr err) -> step w (RunThen a) = Some w' ->
      elems (col w') = elems (col w) /\
      col_length (col w') = col_length (col w) /\
      items (col w') = items (col w)) /\
  (forall (w w' : World) (evs : list event),
      run w evs = Some w' -> no_refresh evs = true ->
      items (col w) `prefix_of` items (col w') /\
      col_length (col w) <= col_length (col w')).
Proof.
  split; [|split].
  - apply step_items.
  - intros w w' a err (t & Ha & Hq & Hth) Hs.
    rewrite (step_RunThen w a t (QErr err)) in Hs by done.
    by injection Hs as <-.
  - intros w w' evs Hr Hn.
    pose proof (run_items_prefix evs w w' Hr Hn) as Hp.
    split; [done|]. apply prefix_length in Hp. by rewrite !length_items in Hp.
Qed.

(** ** The length a pending handler finds *)

(** While the handler of an attempt is still due, no other handler can
    run, so only [refresh] changes [length]. *)
Lemma step_length_pending (w w' : World) (e : event) (a : PromiseRef)
    (t t' : Attempt) :
  wf w -> attempts w !! a = Some t -> thenP t = None ->
  step w e = Some w' -> attempts w' !! a = Some t' -> thenP t' = None ->
  col_length (col w') = if is_refresh e then 0 else col_length (col w).
Proof.
  intros Hw Ha Hth Hs Ha' Hth'. destruct e as [| |b o|b|b]; simpl.
  - simpl in Hs. injection Hs as <-. by destruct (more_col w) as (_ & -> & _).
  - simpl in Hs. injection Hs as <-. unfold refresh.
    by destruct (more_col {| col := set_loadingState Loading (set_length 0 (col w));
                             attempts := attempts w;
                             queried := queried w |}) as (_ & -> & _).
  - by destruct (step_QuerySettles_col _ _ _ _ Hs) as [-> _].
  - destruct (step_RunThen_inv _ _ _ Hs) as (tb & o & Hb & Hq & Hthb & ->).
    exfalso. simpl in Ha'.
    apply lookup_insert_cases in Ha' as [[_ ->]|[Hne _]]; [done|].
    apply Hne.
    pose proof (wf_attempts w Hw a t Ha) as Hok.
    pose proof (wf_attempts w Hw b tb Hb) as Hokb.
    apply (ok_finally_after_then _ _ _ Hok), (ok_current _ _ _ Hok) in Hth.
    apply (ok_finally_after_then _ _ _ Hokb), (ok_current _ _ _ Hokb) in Hthb.
    congruence.
  - by destruct (step_RunFinally_inv _ _ _ Hs) as (tb & s & _ & _ & _ & ->).
Qed.

Lemma run_length_pending (evs : list event) : forall w w' a t t',
  wf w -> attempts w !! a = Some t ->
  run w evs = Some w' -> attempts w' !! a = Some t' -> thenP t' = None ->
  col_length (col w') = if no_refresh evs then col_length (col w) else 0.
Proof.
  induction evs as [|e evs IH]; intros w w' a t t' Hw Ha Hr Ha' Hth';
    simpl in Hr.
  - by injection Hr as <-.
  - destruct (step w e) as [w1|] eqn:Hs; [|done].
    destruct (step_extends _ _ _ _ _ Hs Ha) as (t1 & Ha1 & He).
    destruct (run_extends _ _ _ _ _ Hr Ha1) as (t2 & Ha2 & He1).
    assert (t2 = t') as -> by congruence.
    assert (thenP t1 = None) as Hth1.
    { destruct (thenP t1) as [s|] eqn:Hx; [|done].
      destruct He1 as (_ & _ & _ & Hk & _). by rewrite (Hk s Hx) in Hth'. }
    assert (thenP t = None) as Hth.
    { destruct (thenP t) as [s|] eqn:Hx; [|done].
      destruct He as (_ & _ & _ & Hk & _). by rewrite (Hk s Hx) in Hth1. }
    rewrite (IH w1 w' a t1 t' (wf_step _ _ _ Hw Hs) Ha1 Hr Ha' Hth').
    rewrite (step_length_pending w w1 e a t t1 Hw Ha Hth Hs Ha1 Hth1).
    unfold no_refresh; simpl. fold (no_refresh evs).
    by destruct (is_refresh e), (no_refresh evs).
Qed.

(** The handler of a load that succeeds, after any events since a world
    [w1] in which the attempt existed: it can run, it finds the length of
    [w1] or, after a [refresh], an empty collection, and it returns the
    record computed from the attempt's snapshots. *)
Lemma handler_after_run (w1 w2 : World) (evs : list event) (a : PromiseRef)
    (t1 : Attempt) (xs : list Item) :
  wf w1 -> attempts w1 !! a = Some t1 ->
  run w1 evs = Some w2 -> awaiting_then w2 a (QOk xs) ->
  exists w3, step w2 (RunThen a) = Some w3 /\
    col_length (col w2) = (if no_refresh evs then col_length (col w1) else 0) /\
    items (col w3) = items (col w2) ++ (Some <$> xs) /\
    col_length (col w3) = col_length (col w2) + length xs /\
    handler_result w3 a = Some (Fulfilled (VResult
      {| r_items := xs;
         oldLength := lenBef t1;
         newLength := col_length (col w2) + length xs;
         firstSuccessfulQuery :=
           is_loading (stateBef t1) &&
           (0 <? col_length (col w2) + length xs) |})).
Proof.
  intros Hw Ha1 Hr (t2 & Ha2 & Hq2 & Hth2).
  destruct (run_extends _ _ _ _ _ Hr Ha1) as (t2' & Ha2' & Hl & Hs & _).
  assert (t2' = t2) as -> by congruence.
  eexists. split; [by apply (step_RunThen w2 a t2 (QOk xs))|]. simpl.
  split; [by apply (run_length_pending evs w1 w2 a t1 t2)|].
  split; [by rewrite items_set_loadingState, items_push|].
  split; [done|].
  erewrite handler_result_insert by done. simpl. by rewrite Hl, Hs.
Qed.

(** ** [refresh] while a load is outstanding *)


(** ** [firstSuccessfulQuery] *)

Lemma is_loading_true (s : option LoadingState) :
  is_loading s = true <-> s = Some Loading.
Proof. by destruct s as [[]|]. Qed.

Lemma since_refresh_app (evs1 evs2 : list event) : forall b,
  since_refresh b (evs1 ++ evs2) = since_refresh (since_refresh b evs1) evs2.
Proof.
  induction evs1 as [|e evs1 IH]; intros b; simpl; [done|].
  destruct e; apply IH.
Qed.

Lemma since_refresh_no_refresh (evs : list event) :
  no_refresh evs = true -> since_refresh false evs = false.
Proof.
  induction evs as [|e evs IH]; simpl; [done|].
  intros [He Hn]%andb_true_iff. destruct e; try done; by apply IH.
Qed.

Lemma step_since_refresh (w w' : World) (e : event) :
  step w e = Some w' ->
  is_loading (loadingState (col w')) =
    since_refresh (is_loading (loadingState (col w))) [e].
Proof.
  intros Hs. destruct e as [| |a o|a|a]; simpl.
  - simpl in Hs. injection Hs as <-. by destruct (more_col w) as (_ & _ & ->).
  - simpl in Hs. injection Hs as <-. unfold refresh.
    by destruct (more_col {| col := set_loadingState Loading (set_length 0 (col w));
                             attempts := attempts w;
                             queried := queried w |}) as (_ & _ & ->).
  - by destruct (step_QuerySettles_col _ _ _ _ Hs) as [-> _].
  - destruct (step_RunThen_inv _ _ _ Hs) as (t & o & _ & _ & _ & ->).
    by destruct o.
  - by destruct (step_RunFinally_inv _ _ _ Hs) as (t & s & _ & _ & _ & ->).
Qed.

Lemma run_since_refresh (evs : list event) : forall w w',
  run w evs = Some w' ->
  is_loading (loadingState (col w')) =
    since_refresh (is_loading (loadingState (col w))) evs.
Proof.
  induction evs as [|e evs IH]; intros w w' Hr; simpl in Hr.
  - by injection Hr as <-.
  - destruct (step w e) as [w1|] eqn:Hs; [|done].
    rewrite (IH _ _ Hr), (step_since_refresh _ _ _ Hs).
    by rewrite <- since_refresh_app.
Qed.

Lemma new_Collection_loading (loadNow : option bool) :
  is_loading (loadingState (col (new_Collection loadNow))) = autostart loadNow.
Proof. unfold new_Collection. by destruct (autostart loadNow). Qed.

(** The record a successful handler returned, read off the invariant. *)
Lemma handler_result_record (w : World) (a : PromiseRef) (t : Attempt)
    (r : LoadResult) :
  wf w -> attempts w !! a = Some t -> thenP t = Some (Fulfilled (VResult r)) ->
  firstSuccessfulQuery r = is_loading (stateBef t) && (0 <? newLength r) /\
  oldLength r = lenBef t /\
  (stateBef t = Some Loading -> newLength r = length (r_items r)).
Proof.
  intros Hw Ha Hth. pose proof (wf_attempts w Hw a t Ha) as Hok.
  destruct (queryP t) as [[xs|err]|] eqn:Hq.
  - destruct (ok_result _ _ _ Hok xs _ Hq Hth) as (r' & [= <-] & <- & ? & ? & ?).
    done.
  - by pose proof (ok_err _ _ _ Hok err _ Hq Hth).
  - apply (ok_then_after_query _ _ _ Hok) in Hq. congruence.
Qed.

(** The flag as the code computes it.  Take any attempt: it is started
    by a call ([more] or [refresh]) made after a constructor call and
    events [evs], with no load outstanding.  If it succeeds with the
    record [r], then [firstSuccessfulQuery] is [true] exactly when the
    state it snapshotted was ['loading'] (a [refresh], the call itself
    or an earlier one, was made and no handler, of a successful or of a
    failed load, has run since) and [newLength] is positive.  It is
    [false] when the load yielded no items, and [false] for every load
    started after a handler has run without a [refresh] in between. *)
Theorem firstSuccessfulQuery_lifecycle
    (loadNow : option bool) (evs : list event) (w w1 : World) (call : event) :
  run (new_Collection loadNow) evs = Some w ->
  moreQ (col w) = None ->
  call = CallMore \/ call = CallRefresh ->
  step w call = Some w1 ->
  let a := length (attempts w) in
  exists t1, attempts w1 !! a = Some t1 /\
    (stateBef t1 = Some Loading <->
       since_refresh (autostart loadNow) (evs ++ [call]) = true) /\
    forall (evs' : list event) (w2 : World) (r : LoadResult),
      run w1 evs' = Some w2 ->
      handler_result w2 a = Some (Fulfilled (VResult r)) ->
      (firstSuccessfulQuery r = true <->
         stateBef t1 = Some Loading /\ 0 < newLength r) /\
      (r_items r = [] -> firstSuccessfulQuery r = false) /\
      (forall (evs0 evs1 : list event) (b : PromiseRef),
         evs = evs0 ++ RunThen b :: evs1 -> no_refresh (evs1 ++ [call]) = true ->
         firstSuccessfulQuery r = false).
Proof.
  intros Hr Hq Hcall Hs a.
  assert (reachable w) as Hw by (by exists loadNow, evs).
  assert (is_loading (loadingState (col w1)) =
          since_refresh (autostart loadNow) (evs ++ [call])) as Hsr.
  { rewrite (step_since_refresh _ _ _ Hs), (run_since_refresh _ _ _ Hr).
    by rewrite new_Collection_loading, since_refresh_app. }
  assert (exists t1, attempts w1 !! a = Some t1 /\
            stateBef t1 = loadingState (col w1)) as (t1 & Ha1 & Hsb).
  { destruct Hcall as [-> | ->]; simpl in Hs; injection Hs as <-.
    - rewrite (more_fresh w Hq); simpl. eexists. split; [apply lookup_new_attempt|].
      done.
    - unfold refresh. rewrite more_fresh by done. simpl.
      eexists. split; [apply lookup_new_attempt|]. done. }
  exists t1. split; [done|]. split.
  { by rewrite <- Hsr, Hsb, is_loading_true. }
  intros evs' w2 r Hr' Hh.
  assert (reachable w2) as Hw2.
  { eapply reachable_run; [|exact Hr']. by eapply reachable_step. }
  apply reachable_wf in Hw2.
  destruct (run_extends _ _ _ _ _ Hr' Ha1) as (t2 & Ha2 & _ & Hs2 & _).
  unfold handler_result in Hh. rewrite Ha2 in Hh.
  destruct (handler_result_record w2 a t2 r Hw2 Ha2 Hh) as (Hf & _ & Hn).
  rewrite Hs2 in Hf, Hn.
  split; [|split].
  - rewrite Hf, andb_true_iff, is_loading_true, Nat.ltb_lt. done.
  - intros Hnil. rewrite Hf. destruct (is_loading (stateBef t1)) eqn:Hl; [|done].
    apply is_loading_true in Hl. rewrite (Hn Hl), Hnil. done.
  - intros evs0 evs1 b -> Hnr. rewrite Hf.
    rewrite Hsb, Hsr. rewrite <- app_assoc, since_refresh_app. simpl.
    by rewrite (since_refresh_no_refresh _ Hnr).
Qed.

(** ** Further properties of [more] and [refresh] *)

(** X1. [refresh] is idempotent: a second [refresh] made right after a
    first one returns the same promise and changes nothing, so the query
    is not invoked a second time; the same holds for a [more] made right
    after a [refresh]. *)
Theorem refresh_idempotent (w : World) :
  refresh (snd (refresh w)) = refresh w /\
  more (snd (refresh w)) = refresh w.
Proof.
  destruct w as [[el len ls [p|]] att q]; by unfold refresh, more.
Qed.

(** X2. The query is invoked only inside a call to [more] or [refresh]
    made with no load outstanding, with the current length ([more]) or 0
    ([refresh]) as offset; no callback invokes it, so a failed load is
    never retried on its own.  The log of invocations only grows. *)
Theorem query_invoked_only_by_calls :
  (forall (w w' : World) (e : event),
      step w e = Some w' ->
      queried w' = queried w \/
      (moreQ (col w) = None /\
       ((e = CallMore /\ queried w' = queried w ++ [col_length (col w)]) \/
        (e = CallRefresh /\ queried w' = queried w ++ [0])))) /\
  (forall (evs : list event) (w w' : World),
      run w evs = Some w' -> queried w `prefix_of` queried w').
Proof.
  assert (forall (w w' : World) (e : event),
      step w e = Some w' ->
      queried w' = queried w \/
      (moreQ (col w) = None /\
       ((e = CallMore /\ queried w' = queried w ++ [col_length (col w)]) \/
        (e = CallRefresh /\ queried w' = queried w ++ [0])))) as Hstep.
  { intros w w' e Hs. destruct e as [| |a o|a|a].
    - simpl in Hs. injection Hs as <-.
      destruct (moreQ (col w)) as [p|] eqn:Hp.
      + left. by rewrite (more_coalesced w p).
      + right. split; [done|]. left. by rewrite more_fresh.
    - simpl in Hs. injection Hs as <-. unfold refresh.
      destruct (moreQ (col w)) as [p|] eqn:Hp.
      + left. by rewrite (more_coalesced _ p).
      + right. split; [done|]. right. by rewrite more_fresh.
    - left. by destruct (step_QuerySettles_col _ _ _ _ Hs) as [_ ->].
    - left. by destruct (step_RunThen_inv _ _ _ Hs) as (t & o & _ & _ & _ & ->).
    - left. by destruct (step_RunFinally_inv _ _ _ Hs) as (t & s & _ & _ & _ & ->). }
  split; [exact Hstep|].
  induction evs as [|e evs IH]; intros w w' Hr; simpl in Hr.
  - by injection Hr as <-.
  - destruct (step w e) as [w1|] eqn:Hs; [|done].
    transitivity (queried w1); [|by apply IH].
    destruct (Hstep _ _ _ Hs) as [->|(_ & [[_ ->]|[_ ->]])];
      [done|by apply prefix_app_r..].
Qed.

(** X3. In a reachable world, while [loadingState] is ['loading'] the
    collection is empty. *)
Theorem loading_implies_empty (w : World) :
  reachable w -> loadingState (col w) = Some Loading ->
  col_length (col w) = 0 /\ items (col w) = [].
Proof.
  intros Hw Hl. apply reachable_wf in Hw.
  pose proof (wf_loading w Hw Hl) as H0. split; [done|].
  unfold items. by rewrite H0.
Qed.

(** The promise in [moreQ] belongs to the attempt made last. *)
Lemma step_moreQ_last (w w' : World) (e : event) :
  (forall p, moreQ (col w) = Some p -> S p = length (attempts w)) ->
  step w e = Some w' ->
  forall p, moreQ (col w') = Some p -> S p = length (attempts w').
Proof.
  intros Hlast Hs p Hp. destruct e as [| |a o|a|a].
  - simpl in Hs. injection Hs as <-.
    destruct (moreQ (col w)) as [q|] eqn:Hq.
    + rewrite (more_coalesced w q Hq) in Hp |- *. simpl in *.
      apply Hlast. congruence.
    + rewrite (more_fresh w Hq) in Hp |- *. simpl in *.
      injection Hp as <-. rewrite length_app. simpl. lia.
  - simpl in Hs. injection Hs as <-. unfold refresh in *.
    destruct (moreQ (col w)) as [q|] eqn:Hq.
    + rewrite (more_coalesced _ q) in Hp |- * by done. simpl in *.
      apply Hlast. congruence.
    + rewrite more_fresh in Hp |- * by done. simpl in *.
      injection Hp as <-. rewrite length_app. simpl. lia.
  - simpl in Hs. destruct (attempts w !! a) as [t|]; [|done].
    destruct (queryP t); [done|]. injection Hs as <-. simpl in *.
    rewrite length_insert. by apply Hlast.
  - destruct (step_RunThen_inv _ _ _ Hs) as (t & o & _ & _ & _ & ->).
    simpl in *. rewrite length_insert. apply Hlast.
    by rewrite <- (handler_moreQ t o (col w)).
  - destruct (step_RunFinally_inv _ _ _ Hs) as (t & s & _ & _ & _ & ->).
    done.
Qed.

Lemma run_moreQ_last (evs : list event) : forall w w',
  (forall p, moreQ (col w) = Some p -> S p = length (attempts w)) ->
  run w evs = Some w' ->
  forall p, moreQ (col w') = Some p -> S p = length (attempts w').
Proof.
  induction evs as [|e evs IH]; intros w w' Hlast Hr; simpl in Hr.
  - by injection Hr as <-.
  - destruct (step w e) as [w1|] eqn:Hs; [|done].
    eapply IH; [|done]. by eapply step_moreQ_last.
Qed.

(** X4. In a reachable world at most one attempt has its [finally]
    callback still to run: an attempt is in that state exactly when its
    promise is the one in [moreQ], it is then the attempt made last, and
    for every other attempt the query has settled and the handler and
    the [finally] callback have run. *)
Theorem one_outstanding_attempt (w : World) :
  reachable w ->
  (forall a, outstanding w a <-> moreQ (col w) = Some a) /\
  (forall a b, outstanding w a -> outstanding w b -> a = b) /\
  (forall p, moreQ (col w) = Some p -> S p = length (attempts w)) /\
  (forall a t, attempts w !! a = Some t -> moreQ (col w) <> Some a ->
     exists o s, queryP t = Some o /\ thenP t = Some s /\ finallyP t = Some s).
Proof.
  intros Hr. pose proof (reachable_wf w Hr) as Hw.
  assert (forall a, outstanding w a <-> moreQ (col w) = Some a) as Hout.
  { intros a. split.
    - intros (t & Ha & Hf). by apply (ok_current _ _ _ (wf_attempts w Hw a t Ha)).
    - intros Hp. pose proof (wf_moreQ w Hw a Hp) as Hlt.
      apply lookup_lt_is_Some in Hlt as [t Ha]. exists t. split; [done|].
      by apply (ok_current _ _ _ (wf_attempts w Hw a t Ha)). }
  split; [exact Hout|]. split; [|split].
  - intros a b Ha%Hout Hb%Hout. congruence.
  - destruct Hr as (loadNow & evs & Hr).
    eapply run_moreQ_last; [|exact Hr].
    intros p. unfold new_Collection. by destruct (autostart loadNow); intros [= <-].
  - intros a t Ha Hne. pose proof (wf_attempts w Hw a t Ha) as Hok.
    destruct (finallyP t) as [s|] eqn:Hf.
    + pose proof (ok_passthrough _ _ _ Hok s Hf) as Hth.
      destruct (queryP t) as [o|] eqn:Hq.
      * by exists o, s.
      * apply (ok_then_after_query _ _ _ Hok) in Hq. congruence.
    + by apply (ok_current _ _ _ Hok) in Hf.
Qed.

(** ** The index properties *)

Lemma store_from_is_Some (xs : list Item) : forall n m i,
  is_Some (m !! i) -> is_Some (store_from n xs m !! i).
Proof.
  induction xs as [|x xs IH]; intros n m i Hi; simpl; [done|].
  apply IH. apply lookup_insert_is_Some.
  destruct (decide (n = i)); [by left|by right].
Qed.

Lemma store_from_stored (xs : list Item) : forall n m i,
  n <= i < n + length xs -> is_Some (store_from n xs m !! i).
Proof.
  induction xs as [|x xs IH]; intros n m i Hi; simpl in *; [lia|].
  destruct (decide (i = n)) as [->|Hne].
  - rewrite store_from_lookup_lt by lia. rewrite lookup_insert_eq. by eexists.
  - apply IH. lia.
Qed.

Lemma step_no_holes (w w' : World) (e : event) :
  (forall i, i < col_length (col w) -> is_Some (elems (col w) !! i)) ->
  step w e = Some w' ->
  forall i, i < col_length (col w') -> is_Some (elems (col w') !! i).
Proof.
  intros Hd Hs i Hi. destruct e as [| |a o|a|a].
  - simpl in Hs. injection Hs as <-.
    destruct (more_col w) as (He & Hl & _). rewrite He. apply Hd. by rewrite <- Hl.
  - simpl in Hs. injection Hs as <-. unfold refresh in Hi.
    destruct (more_col {| col := set_loadingState Loading (set_length 0 (col w));
                          attempts := attempts w;
                          queried := queried w |}) as (_ & Hl & _).
    rewrite Hl in Hi. simpl in Hi. lia.
  - destruct (step_QuerySettles_col _ _ _ _ Hs) as [Hc _]. rewrite Hc in *.
    by apply Hd.
  - destruct (step_RunThen_inv _ _ _ Hs) as (t & o & _ & _ & _ & ->).
    destruct o as [xs|err]; simpl in *; [|by apply Hd].
    destruct (decide (i < col_length (col w))).
    + rewrite store_from_lookup_lt by done. by apply Hd.
    + apply store_from_stored. lia.
  - destruct (step_RunFinally_inv _ _ _ Hs) as (t & s & _ & _ & _ & ->).
    simpl in *. by apply Hd.
Qed.

Lemma run_no_holes (evs : list event) : forall w w',
  (forall i, i < col_length (col w) -> is_Some (elems (col w) !! i)) ->
  run w evs = Some w' ->
  forall i, i < col_length (col w') -> is_Some (elems (col w') !! i).
Proof.
  induction evs as [|e evs IH]; intros w w' Hd Hr; simpl in Hr.
  - by injection Hr as <-.
  - destruct (step w e) as [w1|] eqn:Hs; [|done].
    eapply IH; [|done]. by eapply step_no_holes.
Qed.

(** X5. In a reachable world the collection has no holes: every index
    below [length] holds an item, so no entry of the array-like view
    reads as [undefined]. *)
Theorem no_holes (w : World) :
  reachable w ->
  (forall i, i < col_length (col w) -> is_Some (elems (col w) !! i)) /\
  None ∉ items (col w).
Proof.
  intros (loadNow & evs & Hr).
  assert (forall i, i < col_length (col w) -> is_Some (elems (col w) !! i)) as Hd.
  { eapply run_no_holes; [|exact Hr].
    intros i. unfold new_Collection. destruct (autostart loadNow); simpl; lia. }
  split; [exact Hd|].
  unfold items. intros (i & Hn & Hi)%list_elem_of_fmap.
  apply elem_of_seq in Hi. destruct (Hd i) as [x Hx]; [lia|]. congruence.
Qed.

Lemma step_elems_kept (w w' : World) (e : event) (i : nat) :
  step w e = Some w' -> is_Some (elems (col w) !! i) ->
  is_Some (elems (col w') !! i).
Proof.
  intros Hs Hi. destruct e as [| |a o|a|a].
  - simpl in Hs. injection Hs as <-. by destruct (more_col w) as (-> & _).
  - simpl in Hs. injection Hs as <-. unfold refresh.
    by destruct (more_col {| col := set_loadingState Loading (set_length 0 (col w));
                             attempts := attempts w;
                             queried := queried w |}) as (-> & _).
  - by destruct (step_QuerySettles_col _ _ _ _ Hs) as [-> _].
  - destruct (step_RunThen_inv _ _ _ Hs) as (t & o & _ & _ & _ & ->).
    destruct o as [xs|err]; simpl; [|done]. by apply store_from_is_Some.
  - by destruct (step_RunFinally_inv _ _ _ Hs) as (t & s & _ & _ & _ & ->).
Qed.

(** X6. [refresh] sets [length] to 0 on an object that is not an array,
    so it empties the array-like view and leaves the index properties
    stored; no event removes an index property: an index that holds a
    value holds one in every later world. *)
Theorem index_properties_kept :
  (forall w : World,
      elems (col (snd (refresh w))) = elems (col w) /\
      items (col (snd (refresh w))) = []) /\
  (forall (evs : list event) (w w' : World) (i : nat),
      run w evs = Some w' -> is_Some (elems (col w) !! i) ->
      is_Some (elems (col w') !! i)).
Proof.
  split.
  - intros w. unfold refresh, items.
    by destruct (more_col {| col := set_loadingState Loading (set_length 0 (col w));
                             attempts := attempts w;
                             queried := queried w |}) as (-> & -> & _).
  - induction evs as [|e evs IH]; intros w w' i Hr Hi; simpl in Hr.
    + by injection Hr as <-.
    + destruct (step w e) as [w1|] eqn:Hs; [|done].
      eapply IH; [done|]. by eapply step_elems_kept.
Qed.

(** ** The lengths a result reports *)

(** X7. Take any attempt, started by a call made with no load
    outstanding, and any events [evs] between that call and its handler.
    When the query succeeded with [xs], the record the handler returns
    has [items = xs], [oldLength] the length at the call, and
    [newLength] the length of the collection after the append; that is
    [oldLength + items.length] when no [refresh] was called in between,
    and [items.length] when one was. *)
Theorem result_lengths (w w1 w2 : World) (call : event) (evs : list event)
    (xs : list Item) :
  reachable w -> moreQ (col w) = None ->
  call = CallMore \/ call = CallRefresh ->
  step w call = Some w1 ->
  let a := length (attempts w) in
  run w1 evs = Some w2 -> awaiting_then w2 a (QOk xs) ->
  exists w3 r,
    step w2 (RunThen a) = Some w3 /\
    handler_result w3 a = Some (Fulfilled (VResult r)) /\
    r_items r = xs /\
    oldLength r = col_length (col w1) /\
    newLength r = col_length (col w3) /\
    newLength r =
      (if no_refresh evs then oldLength r + length xs else length xs).
Proof.
  intros Hr Hq Hcall Hs a Hrun Haw.
  pose proof (reachable_wf _ (reachable_step _ _ _ Hr Hs)) as Hw1.
  assert (exists t1, attempts w1 !! a = Some t1 /\
            lenBef t1 = col_length (col w1)) as (t1 & Ha1 & Hl1).
  { destruct Hcall as [-> | ->]; simpl in Hs; injection Hs as <-.
    - rewrite (more_fresh w Hq); simpl.
      eexists. split; [apply lookup_new_attempt|done].
    - unfold refresh. rewrite more_fresh by done. simpl.
      eexists. split; [apply lookup_new_attempt|done]. }
  destruct (handler_after_run w1 w2 evs a t1 xs Hw1 Ha1 Hrun Haw)
    as (w3 & Hst & Hlen & _ & Hlen3 & Hres).
  eexists w3, _. split; [exact Hst|]. split; [exact Hres|]. simpl.
  split; [done|]. split; [done|]. split; [done|].
  rewrite Hlen, Hl1. by destruct (no_refresh evs).
Qed.

(** ** A collection that is never refreshed *)

Lemma never_loading_step (w w' : World) (e : event) :
  never_loading w -> is_refresh e = false -> step w e = Some w' ->
  never_loading w'.
Proof.
  intros [Hst Hat] He Hs. destruct e as [| |a o|a|a]; [|done|..].
  - simpl in Hs. injection Hs as <-.
    destruct (moreQ (col w)) as [p|] eqn:Hp.
    + by rewrite (more_coalesced w p).
    + rewrite (more_fresh w Hp). split; [done|]. simpl. intros b tb Hb.
      apply lookup_app_Some in Hb as [Hb|[_ Hb]]; [by eapply Hat|].
      by apply list_lookup_singleton_Some in Hb as [_ <-].
  - simpl in Hs. destruct (attempts w !! a) as [t|] eqn:Ha; [|done].
    destruct (queryP t); [done|]. injection Hs as <-. split; [done|].
    simpl. intros b tb Hb.
    apply lookup_insert_cases in Hb as [[-> ->]|[_ Hb]]; [|by eapply Hat].
    simpl. by eapply Hat.
  - destruct (step_RunThen_inv _ _ _ Hs) as (t & o & Ha & _ & _ & ->).
    split; [apply handler_not_loading|]. simpl. intros b tb Hb.
    apply lookup_insert_cases in Hb as [[-> ->]|[_ Hb]]; [|by eapply Hat].
    simpl. by eapply Hat.
  - destruct (step_RunFinally_inv _ _ _ Hs) as (t & s & Ha & _ & _ & ->).
    split; [done|]. simpl. intros b tb Hb.
    apply lookup_insert_cases in Hb as [[-> ->]|[_ Hb]]; [|by eapply Hat].
    simpl. by eapply Hat.
Qed.

Lemma never_loading_run (evs : list event) : forall w w',
  never_loading w -> no_refresh evs = true -> run w evs = Some w' ->
  never_loading w'.
Proof.
  induction evs as [|e evs IH]; intros w w' Hn He Hr; simpl in Hr.
  - by injection Hr as <-.
  - destruct (step w e) as [w1|] eqn:Hs; [|done].
    simpl in He. apply andb_true_iff in He as [He1 He2].
    eapply IH; [|done..]. eapply never_loading_step; [done| |done].
    by destruct (is_refresh e).
Qed.

(** X8. A collection constructed with [loadNow] false and used without
    [refresh] never shows ['loading'], and every successful load, the
    first one included, reports [firstSuccessfulQuery] as [false]. *)
Theorem without_refresh_never_first (evs : list event) (w : World) :
  run (new_Collection (Some false)) evs = Some w ->
  no_refresh evs = true ->
  loadingState (col w) <> Some Loading /\
  forall a r, handler_result w a = Some (Fulfilled (VResult r)) ->
    firstSuccessfulQuery r = false.
Proof.
  intros Hr Hn.
  assert (never_loading w) as [Hst Hat].
  { eapply never_loading_run; [|exact Hn|exact Hr]. by split. }
  split; [done|]. intros a r Hh.
  assert (wf w) as Hw by (apply reachable_wf; by exists (Some false), evs).
  unfold handler_result in Hh.
  destruct (attempts w !! a) as [t|] eqn:Ha; [|done].
  destruct (handler_result_record w a t r Hw Ha Hh) as (-> & _).
  destruct (is_loading (stateBef t)) eqn:Hl; [|done].
  apply is_loading_true in Hl. by apply Hat in Ha.
Qed.

(** ** Every load can complete *)



(** ** Whole loads *)

(** The three events of an attempt that has just been made. *)
Lemma run_chain (w : World) (a lb : nat) (sb : option LoadingState)
    (o : QOutcome) :
  attempts w !! a = Some (new_attempt lb sb) ->
  exists w',
    run w [QuerySettles a o; RunThen a; RunFinally a] = Some w' /\
    col w' = onFinally (fst (run_handler (new_attempt lb sb) o (col w))) /\
    settlement w' a =
      Some (Fulfilled (snd (run_handler (new_attempt lb sb) o (col w)))) /\
    queried w' = queried w /\
    length (attempts w') = length (attempts w).
Proof.
  intros Ha. pose proof (lookup_lt_Some _ _ _ Ha) as Hlt.
  set (t1 := with_queryP o (new_attempt lb sb)).
  set (w1 := {| col := col w; attempts := <[a := t1]> (attempts w);
                queried := queried w |}).
  assert (step w (QuerySettles a o) = Some w1) as H1.
  { simpl. by rewrite Ha. }
  assert (attempts w1 !! a = Some t1) as Ha1.
  { subst w1; simpl. by apply list_lookup_insert_eq. }
  pose proof (step_RunThen w1 a t1 o Ha1 eq_refl eq_refl) as H2.
  match type of H2 with _ = Some ?x => set (w2 := x) in * end.
  set (s := Fulfilled (snd (run_handler t1 o (col w1)))) in *.
  assert (attempts w2 !! a = Some (with_thenP s t1)) as Ha2.
  { subst w2; simpl. apply list_lookup_insert_eq. by rewrite length_insert. }
  pose proof (step_RunFinally w2 a (with_thenP s t1) s Ha2 eq_refl eq_refl) as H3.
  match type of H3 with _ = Some ?x => set (w3 := x) in * end.
  exists w3. split; [cbn [run]; by rewrite H1, H2, H3|].
  split; [subst w3 w2 w1 t1; simpl; by destruct o|]. split.
  - subst w3. erewrite settlement_insert by exact Ha2.
    subst s w1 t1. simpl. by destruct o.
  - split; [done|]. subst w3 w2 w1. simpl. by rewrite !length_insert.
Qed.

Lemma items_onFinally (c : Collection) : items (onFinally c) = items c.
Proof. reflexivity. Qed.

(** One page: a call to [more] with no load outstanding, and the events
    of its attempt when the query succeeds with [xs]. *)
Lemma run_page (w : World) (xs : list Item) :
  moreQ (col w) = None ->
  exists w',
    run w (CallMore :: load_ok (length (attempts w)) xs) = Some w' /\
    items (col w') = items (col w) ++ (Some <$> xs) /\
    col_length (col w') = col_length (col w) + length xs /\
    loadingState (col w') = Some Loaded /\
    moreQ (col w') = None /\
    queried w' = queried w ++ [col_length (col w)] /\
    length (attempts w') = S (length (attempts w)) /\
    settlement w' (length (attempts w)) =
      Some (Fulfilled (VResult
        {| r_items := xs;
           oldLength := col_length (col w);
           newLength := col_length (col w) + length xs;
           firstSuccessfulQuery :=
             is_loading (loadingState (col w)) &&
             (0 <? col_length (col w) + length xs) |})).
Proof.
  intros Hq.
  destruct (run_chain (snd (more w)) (length (attempts w))
              (col_length (col w)) (loadingState (col w)) (QOk xs))
    as (w' & Hr & Hc & Hs & Hqu & Hlen).
  { rewrite (more_fresh w Hq). simpl. apply lookup_new_attempt. }
  exists w'. split.
  { cbn [run step]. exact Hr. }
  rewrite (more_fresh w Hq) in Hc, Hs, Hqu, Hlen. simpl in Hc, Hs, Hqu, Hlen.
  rewrite Hc. split; [|split; [|split; [|split; [|split; [|split]]]]]; try done.
  - by rewrite items_onFinally, items_set_loadingState, items_push.
  - rewrite Hlen, length_app. simpl. lia.
Qed.

(** X10. Pages accumulate.  Starting with no load outstanding, loading
    the pages one after the other, each with a call to [more] whose
    attempt completes before the next call, invokes the query with the
    running lengths as offsets and leaves the items followed by the pages
    in order; nothing is reordered or dropped. *)
Theorem pages_accumulate (pages : list (list Item)) : forall w : World,
  moreQ (col w) = None ->
  exists w',
    run w (load_pages (length (attempts w)) pages) = Some w' /\
    items (col w') = items (col w) ++ (Some <$> concat pages) /\
    col_length (col w') = col_length (col w) + length (concat pages) /\
    queried w' = queried w ++ offsets (col_length (col w)) pages /\
    moreQ (col w') = None.
Proof.
  induction pages as [|xs rest IH]; intros w Hq.
  - exists w. simpl. by rewrite !app_nil_r, Nat.add_0_r.
  - destruct (run_page w xs Hq)
      as (w1 & Hr1 & Hi1 & Hl1 & _ & Hq1 & Hqu1 & Hlen1 & _).
    destruct (IH w1 Hq1) as (w2 & Hr2 & Hi2 & Hl2 & Hqu2 & Hq2).
    exists w2. split.
    { change (load_pages (length (attempts w)) (xs :: rest))
        with ((CallMore :: load_ok (length (attempts w)) xs) ++
              load_pages (S (length (attempts w))) rest).
      rewrite run_app, Hr1, <- Hlen1. exact Hr2. }
    simpl. rewrite Hi2, Hi1, Hl2, Hl1, Hqu2, Hqu1, Hl1.
    rewrite fmap_app, length_app, <- !app_assoc. simpl.
    repeat split; try done. lia.
Qed.

(** X11. [refresh] replaces the contents by the first page.  Called with
    no load outstanding, [refresh] invokes the query with offset 0; when
    the query succeeds with [xs] the items are exactly [xs], whatever the
    collection held before, and the record has [oldLength] 0,
    [newLength] the size of [xs], and [firstSuccessfulQuery] true exactly
    when [xs] is not empty. *)
Theorem refresh_then_load (w : World) (xs : list Item) :
  moreQ (col w) = None ->
  exists w',
    run w (CallRefresh :: load_ok (length (attempts w)) xs) = Some w' /\
    items (col w') = Some <$> xs /\
    loadingState (col w') = Some Loaded /\
    moreQ (col w') = None /\
    queried w' = queried w ++ [0] /\
    settlement w' (length (attempts w)) =
      Some (Fulfilled (VResult
        {| r_items := xs; oldLength := 0; newLength := length xs;
           firstSuccessfulQuery := 0 <? length xs |})).
Proof.
  intros Hq.
  destruct (run_chain (snd (refresh w)) (length (attempts w)) 0 (Some Loading)
              (QOk xs)) as (w' & Hr & Hc & Hs & Hqu & _).
  { unfold refresh. rewrite more_fresh by done. simpl. apply lookup_new_attempt. }
  exists w'. split.
  { cbn [run step]. exact Hr. }
  unfold refresh in Hc, Hs, Hqu. rewrite more_fresh in Hc, Hs, Hqu by done.
  simpl in Hc, Hs, Hqu. rewrite Hc. repeat split; try done.
  by rewrite items_onFinally, items_set_loadingState, items_push.
Qed.


(** ** The first successful load after a failed one *)

(** C8, the code where it departs from the claim.  After a [refresh]
    whose load fails, the load started by the next [more] is the first
    successful load following the [refresh], and the first successful
    load of the collection since it was emptied.  When it succeeds with
    [xs] the items are exactly [xs] and [newLength] is the size of [xs],
    yet its record reports [firstSuccessfulQuery] as [false], also when
    [xs] is not empty: the state it snapshotted is ['failed'], not
    ['loading']. *)
Theorem retry_after_refresh_reports_false (w : World) (err : Err)
    (xs : list Item) :
  moreQ (col w) = None ->
  let a := length (attempts w) in
  exists w1 w2,
    run w (CallRefresh :: load_err a err) = Some w1 /\
    loadingState (col w1) = Some Failed /\
    items (col w1) = [] /\
    settlement w1 a = Some (Fulfilled (VErr err)) /\
    run w1 (CallMore :: load_ok (S a) xs) = Some w2 /\
    queried w2 = queried w ++ [0; 0] /\
    items (col w2) = Some <$> xs /\
    settlement w2 (S a) =
      Some (Fulfilled (VResult
        {| r_items := xs; oldLength := 0; newLength := length xs;
           firstSuccessfulQuery := false |})).
Proof.
  intros Hq a.
  destruct (run_chain (snd (refresh w)) a 0 (Some Loading) (QErr err))
    as (w1 & Hr & Hc & Hs & Hqu & Hlen).
  { unfold refresh. rewrite more_fresh by done. simpl. apply lookup_new_attempt. }
  unfold refresh in Hc, Hs, Hqu, Hlen.
  rewrite more_fresh in Hc, Hs, Hqu, Hlen by done.
  simpl in Hc, Hs, Hqu, Hlen.
  assert (moreQ (col w1) = None) as Hq1 by (by rewrite Hc).
  assert (length (attempts w1) = S a) as Hlen1.
  { rewrite Hlen, length_app. simpl. subst a. lia. }
  destruct (run_page w1 xs Hq1)
    as (w2 & Hr2 & Hi2 & _ & _ & _ & Hqu2 & _ & Hs2).
  rewrite Hlen1 in Hr2, Hs2.
  exists w1, w2. split; [cbn [run step]; exact Hr|].
  rewrite Hc in Hi2, Hqu2, Hs2 |- *. simpl in Hi2, Hqu2, Hs2 |- *.
  repeat split; try done.
  by rewrite Hqu2, Hqu, <- app_assoc.
Qed.

End Collection.

(** ** Concrete runs

    Items and errors are numbers here. *)

Example autostart_then_more :
  let w := exec (new_Collection None) (load_ok 0 [10; 20; 30] ++ [CallMore] ++ load_ok 1 [40; 50]) in
  items (col w) = [Some 10; Some 20; Some 30; Some 40; Some 50] /\
  loadingState (col w) = Some Loaded /\
  queried w = [0; 3] /\
  settlement (Err := nat) w 1 = Some (Fulfilled (VResult
    {| r_items := [40; 50]; oldLength := 3; newLength := 5;
       firstSuccessfulQuery := false |})).
Proof. vm_compute. repeat split. Qed.

(** Spec, section 8: a failed query leaves ['failed'] and the promise is
    fulfilled with the error; the next [more] invokes the query again. *)
Example failure_then_retry :
  let w := exec (@new_Collection nat nat None) (load_err 0 7) in
  loadingState (col w) = Some Failed /\
  settlement w 0 = Some (Fulfilled (VErr 7)) /\
  moreQ (col w) = None /\
  queried (snd (more w)) = [0; 0] /\
  settlement (exec w ([CallMore] ++ load_ok 1 [10])) 1 =
    Some (Fulfilled (VResult
      {| r_items := [10]; oldLength := 0; newLength := 1;
         firstSuccessfulQuery := false |})).
Proof. vm_compute. repeat split. Qed.

(** ** The claims at concrete inputs *)

Lemma more_single_flight_witness :
  reachable (@new_Collection nat nat None) /\
  moreQ (col (@new_Collection nat nat None)) = Some 0 /\
  more (exec (@new_Collection nat nat None) [CallMore; QuerySettles 0 (QOk [10]); CallRefresh; RunThen 0; CallMore])
    = (0, exec (@new_Collection nat nat None) [CallMore; QuerySettles 0 (QOk [10]); CallRefresh; RunThen 0; CallMore]) /\
  more (@new_Collection nat nat None) = (0, (@new_Collection nat nat None)).
Proof.
  assert (reachable (@new_Collection nat nat None)) as Hw by (exists None, []; reflexivity).
  split; [exact Hw|]. split; [reflexivity|]. split.
  - apply (proj1 (proj2 more_single_flight) (@new_Collection nat nat None) _ 0
             [CallMore; QuerySettles 0 (QOk [10]); CallRefresh; RunThen 0; CallMore]
             Hw eq_refl eq_refl eq_refl).
  - apply (proj1 more_single_flight (@new_Collection nat nat None) 0). reflexivity.
Defined.

Lemma more_fresh_success_witness :
  moreQ (col (exec (@new_Collection nat nat None) (load_ok 0 [10; 20; 30]))) = None /\
  fst (more (exec (@new_Collection nat nat None) (load_ok 0 [10; 20; 30]))) = 1 /\
  queried (snd (more (exec (@new_Collection nat nat None) (load_ok 0 [10; 20; 30])))) = [0; 3] /\
  exists w3,
    step (exec (snd (more (exec (@new_Collection nat nat None) (load_ok 0 [10; 20; 30])))) [CallMore; QuerySettles 1 (QOk [40; 50])]) (RunThen 1)
      = Some w3 /\
    items (col w3) = [Some 10; Some 20; Some 30; Some 40; Some 50] /\
    handler_result w3 1 = Some (Fulfilled (VResult
      {| r_items := [40; 50]; oldLength := 3; newLength := 5;
         firstSuccessfulQuery := false |})).
Proof.
  split; [reflexivity|].
  destruct (more_fresh_success (exec (@new_Collection nat nat None) (load_ok 0 [10; 20; 30])) eq_refl) as (H1 & H2 & _ & _ & H5).
  split; [exact H1|]. split; [exact H2|].
  destruct (H5 [CallMore; QuerySettles 1 (QOk [40; 50])] _ [40; 50] eq_refl)
    as (w3 & Hs & Hi & _ & Hres & _).
  { eexists. split; [reflexivity|]. split; reflexivity. }
  exists w3. split; [exact Hs|]. split; [exact Hi|].
  refine (eq_trans Hres _). cbv zeta. rewrite Hi. reflexivity.
Defined.


(** C4 as stated fails: after a load has completed, [more] starts a load
    and leaves [loadingState] at ['loaded']; the state is not ['loading']
    while that load is pending. *)
Lemma more_leaves_Loaded_counterexample :
  reachable (exec (@new_Collection nat nat None) (load_ok 0 [10; 20; 30])) /\
  loadingState (col (exec (@new_Collection nat nat None) (load_ok 0 [10; 20; 30]))) = Some Loaded /\
  moreQ (col (exec (@new_Collection nat nat None) (load_ok 0 [10; 20; 30]))) = None /\
  moreQ (col (snd (more (exec (@new_Collection nat nat None) (load_ok 0 [10; 20; 30]))))) = Some 1 /\
  settlement (snd (more (exec (@new_Collection nat nat None) (load_ok 0 [10; 20; 30])))) 1 = None /\
  loadingState (col (snd (more (exec (@new_Collection nat nat None) (load_ok 0 [10; 20; 30]))))) = Some Loaded /\
  loadingState (col (snd (more (exec (@new_Collection nat nat None) (load_ok 0 [10; 20; 30]))))) <> Some Loading.
Proof.
  split; [exists None, (load_ok 0 [10; 20; 30]); reflexivity|].
  repeat split; try reflexivity. discriminate.
Qed.

Lemma loadingState_transitions_witness :
  moreQ (col (exec (@new_Collection nat nat None) (load_ok 0 [10; 20; 30]))) = None /\
  loadingState (col (snd (more (exec (@new_Collection nat nat None) (load_ok 0 [10; 20; 30]))))) = Some Loaded /\
  moreQ (col (snd (more (exec (@new_Collection nat nat None) (load_ok 0 [10; 20; 30]))))) = Some 1 /\
  step (exec (@new_Collection nat nat None) [QuerySettles 0 (QErr 7)]) (RunThen 0)
    = Some (exec (@new_Collection nat nat None) [QuerySettles 0 (QErr 7); RunThen 0]) /\
  ((exists xs, awaiting_then (exec (@new_Collection nat nat None) [QuerySettles 0 (QErr 7)]) 0 (QOk xs) /\
      loadingState (col (exec (@new_Collection nat nat None) [QuerySettles 0 (QErr 7); RunThen 0])) = Some Loaded) \/
   (exists err, awaiting_then (exec (@new_Collection nat nat None) [QuerySettles 0 (QErr 7)]) 0 (QErr err) /\
      loadingState (col (exec (@new_Collection nat nat None) [QuerySettles 0 (QErr 7); RunThen 0])) = Some Failed)).
Proof.
  split; [reflexivity|].
  destruct (proj1 loadingState_transitions (exec (@new_Collection nat nat None) (load_ok 0 [10; 20; 30])) eq_refl) as (H1 & H2 & _).
  split; [exact H1|]. split; [exact H2|]. split; [reflexivity|].
  apply (proj1 (proj2 loadingState_transitions)
           (exec (@new_Collection nat nat None) [QuerySettles 0 (QErr 7)]) _ 0 eq_refl).
Defined.

Lemma refresh_resets_synchronously_witness :
  reachable (exec (@new_Collection nat nat None) (load_ok 0 [10; 20; 30])) /\
  col_length (col (snd (refresh (exec (@new_Collection nat nat None) (load_ok 0 [10; 20; 30]))))) = 0 /\
  loadingState (col (snd (refresh (exec (@new_Collection nat nat None) (load_ok 0 [10; 20; 30]))))) = Some Loading /\
  settlement (snd (refresh (exec (@new_Collection nat nat None) (load_ok 0 [10; 20; 30])))) (fst (refresh (exec (@new_Collection nat nat None) (load_ok 0 [10; 20; 30])))) = None.
Proof.
  assert (reachable (exec (@new_Collection nat nat None) (load_ok 0 [10; 20; 30]))) as Hw
    by (exists None, (load_ok 0 [10; 20; 30]); reflexivity).
  destruct (refresh_resets_synchronously (exec (@new_Collection nat nat None) (load_ok 0 [10; 20; 30]))) as (H1 & _ & H3 & H4).
  split; [exact Hw|]. split; [exact H1|]. split; [exact H3|exact (H4 Hw)].
Defined.

(** C6 as stated fails: a [refresh] called while the load started by
    [more] at offset 3 is outstanding returns that load's promise; the
    query is not invoked with offset 0, no attempt is added and [moreQ]
    is not overwritten.  The next invocation of the query, after the
    outstanding load has delivered two items, uses offset 2. *)
Lemma refresh_outstanding_counterexample :
  reachable (exec (@new_Collection nat nat None) (load_ok 0 [10; 20; 30] ++ [CallMore])) /\
  moreQ (col (exec (@new_Collection nat nat None) (load_ok 0 [10; 20; 30] ++ [CallMore]))) = Some 1 /\
  queried (exec (@new_Collection nat nat None) (load_ok 0 [10; 20; 30] ++ [CallMore])) = [0; 3] /\
  fst (refresh (exec (@new_Collection nat nat None) (load_ok 0 [10; 20; 30] ++ [CallMore]))) = 1 /\
  queried (snd (refresh (exec (@new_Collection nat nat None) (load_ok 0 [10; 20; 30] ++ [CallMore])))) = [0; 3] /\
  queried (snd (refresh (exec (@new_Collection nat nat None) (load_ok 0 [10; 20; 30] ++ [CallMore])))) <> queried (exec (@new_Collection nat nat None) (load_ok 0 [10; 20; 30] ++ [CallMore])) ++ [0] /\
  moreQ (col (snd (refresh (exec (@new_Collection nat nat None) (load_ok 0 [10; 20; 30] ++ [CallMore]))))) = Some 1 /\
  length (attempts (snd (refresh (exec (@new_Collection nat nat None) (load_ok 0 [10; 20; 30] ++ [CallMore]))))) = length (attempts (exec (@new_Collection nat nat None) (load_ok 0 [10; 20; 30] ++ [CallMore]))) /\
  queried (snd (more (exec (snd (refresh (exec (@new_Collection nat nat None) (load_ok 0 [10; 20; 30] ++ [CallMore])))) (load_ok 1 [40; 50])))) = [0; 3; 2].
Proof.
  split; [exists None, (load_ok 0 [10; 20; 30] ++ [CallMore]); reflexivity|].
  repeat split; try reflexivity. discriminate.
Qed.

Lemma refresh_delegates_witness :
  moreQ (col (exec (@new_Collection nat nat None) (load_ok 0 [10; 20; 30]))) = None /\
  fst (refresh (exec (@new_Collection nat nat None) (load_ok 0 [10; 20; 30]))) = 1 /\
  queried (snd (refresh (exec (@new_Collection nat nat None) (load_ok 0 [10; 20; 30])))) = [0; 0] /\
  moreQ (col (exec (@new_Collection nat nat None) (load_ok 0 [10; 20; 30] ++ [CallMore]))) = Some 1 /\
  fst (refresh (exec (@new_Collection nat nat None) (load_ok 0 [10; 20; 30] ++ [CallMore]))) = 1 /\
  queried (snd (refresh (exec (@new_Collection nat nat None) (load_ok 0 [10; 20; 30] ++ [CallMore])))) = [0; 3] /\
  attempts (snd (refresh (exec (@new_Collection nat nat None) (load_ok 0 [10; 20; 30] ++ [CallMore])))) = attempts (exec (@new_Collection nat nat None) (load_ok 0 [10; 20; 30] ++ [CallMore])).
Proof.
  split; [reflexivity|].
  destruct (proj1 (proj2 (refresh_delegates (exec (@new_Collection nat nat None) (load_ok 0 [10; 20; 30])))) eq_refl) as (H1 & H2 & _).
  split; [exact H1|]. split; [exact H2|]. split; [reflexivity|].
  destruct (proj2 (proj2 (refresh_delegates (exec (@new_Collection nat nat None) (load_ok 0 [10; 20; 30] ++ [CallMore])))) 1 eq_refl) as (H3 & H4 & H5 & _).
  split; [exact H3|]. split; [exact H4|exact H5].
Defined.

Lemma finally_clears_moreQ_witness :
  step (exec (@new_Collection nat nat None) [QuerySettles 0 (QErr 7)]) (RunThen 0)
    = Some (exec (@new_Collection nat nat None) [QuerySettles 0 (QErr 7); RunThen 0]) /\
  settlement (exec (@new_Collection nat nat None) [QuerySettles 0 (QErr 7); RunThen 0; CallRefresh; CallMore]) 0
    = None /\
  (exists w3,
     step (exec (@new_Collection nat nat None) [QuerySettles 0 (QErr 7); RunThen 0; CallRefresh; CallMore])
          (RunFinally 0) = Some w3 /\
     settlement w3 0 <> None /\
     moreQ (col w3) = None /\
     fst (more w3) = length (attempts w3) /\
     queried (snd (more w3)) = queried w3 ++ [col_length (col w3)]) /\
  reachable (@new_Collection nat nat None) /\ moreQ (col (@new_Collection nat nat None)) = Some 0 /\ settlement (@new_Collection nat nat None) 0 = None.
Proof.
  split; [reflexivity|]. split; [reflexivity|]. split.
  - apply (proj1 finally_clears_moreQ
             (exec (@new_Collection nat nat None) [QuerySettles 0 (QErr 7)])
             (exec (@new_Collection nat nat None) [QuerySettles 0 (QErr 7); RunThen 0]) 0 eq_refl
             [CallRefresh; CallMore]
             (exec (@new_Collection nat nat None) [QuerySettles 0 (QErr 7); RunThen 0; CallRefresh; CallMore])
             eq_refl eq_refl).
  - assert (reachable (@new_Collection nat nat None)) as Hw by (exists None, []; reflexivity).
    split; [exact Hw|]. split; [reflexivity|].
    apply (proj2 (proj2 finally_clears_moreQ) (@new_Collection nat nat None) 0 Hw eq_refl).
Defined.

Lemma firstSuccessfulQuery_lifecycle_witness :
  run (@new_Collection nat nat None) (load_ok 0 [10; 20; 30]) = Some (exec (@new_Collection nat nat None) (load_ok 0 [10; 20; 30])) /\
  moreQ (col (exec (@new_Collection nat nat None) (load_ok 0 [10; 20; 30]))) = None /\
  step (exec (@new_Collection nat nat None) (load_ok 0 [10; 20; 30])) CallRefresh = Some (exec (exec (@new_Collection nat nat None) (load_ok 0 [10; 20; 30])) [CallRefresh]) /\
  exists t1,
    attempts (exec (exec (@new_Collection nat nat None) (load_ok 0 [10; 20; 30])) [CallRefresh]) !! 1 = Some t1 /\
    stateBef t1 = Some Loading /\
    (firstSuccessfulQuery
       {| r_items := [40]; oldLength := 0; newLength := 1;
          firstSuccessfulQuery := true |} = true <->
     stateBef t1 = Some Loading /\ 0 < 1).
Proof.
  split; [reflexivity|]. split; [reflexivity|]. split; [reflexivity|].
  destruct (firstSuccessfulQuery_lifecycle None (load_ok 0 [10; 20; 30])
              (exec (@new_Collection nat nat None) (load_ok 0 [10; 20; 30])) (exec (exec (@new_Collection nat nat None) (load_ok 0 [10; 20; 30])) [CallRefresh]) CallRefresh
              eq_refl eq_refl (or_intror eq_refl) eq_refl)
    as (t1 & Ha & Hiff & H).
  exists t1. split; [exact Ha|]. split; [apply Hiff; reflexivity|].
  apply (H (load_ok 1 [40]) (exec (exec (@new_Collection nat nat None) (load_ok 0 [10; 20; 30])) ([CallRefresh] ++ load_ok 1 [40]))
           {| r_items := [40]; oldLength := 0; newLength := 1;
              firstSuccessfulQuery := true |} eq_refl eq_refl).
Defined.

Lemma items_mutation_witness :
  run (@new_Collection nat nat None) (load_ok 0 [10; 20; 30] ++ [CallMore] ++ load_err 1 7)
    = Some (exec (@new_Collection nat nat None) (load_ok 0 [10; 20; 30] ++ [CallMore] ++ load_err 1 7)) /\
  no_refresh (@load_ok nat nat 0 [10; 20; 30] ++ [CallMore] ++ load_err 1 7) = true /\
  col_length (col (@new_Collection nat nat None))
    <= col_length (col (exec (@new_Collection nat nat None) (load_ok 0 [10; 20; 30] ++ [CallMore] ++ load_err 1 7))) /\
  awaiting_then (exec (exec (@new_Collection nat nat None) (load_ok 0 [10; 20; 30] ++ [CallMore])) [QuerySettles 1 (QErr 7)]) 1 (QErr 7) /\
  items (col (exec (exec (@new_Collection nat nat None) (load_ok 0 [10; 20; 30] ++ [CallMore])) [QuerySettles 1 (QErr 7); RunThen 1]))
    = items (col (exec (exec (@new_Collection nat nat None) (load_ok 0 [10; 20; 30] ++ [CallMore])) [QuerySettles 1 (QErr 7)])).
Proof.
  split; [reflexivity|]. split; [reflexivity|]. split.
  - apply (proj2 (proj2 items_mutation) (@new_Collection nat nat None) _
             (load_ok 0 [10; 20; 30] ++ [CallMore] ++ load_err 1 7)
             eq_refl eq_refl).
  - assert (awaiting_then (exec (exec (@new_Collection nat nat None) (load_ok 0 [10; 20; 30] ++ [CallMore])) [QuerySettles 1 (QErr 7)]) 1 (QErr 7)) as Haw.
    { eexists. split; [reflexivity|]. split; reflexivity. }
    split; [exact Haw|].
    apply (proj1 (proj2 items_mutation)
             (exec (exec (@new_Collection nat nat None) (load_ok 0 [10; 20; 30] ++ [CallMore])) [QuerySettles 1 (QErr 7)])
             (exec (exec (@new_Collection nat nat None) (load_ok 0 [10; 20; 30] ++ [CallMore])) [QuerySettles 1 (QErr 7); RunThen 1]) 1 7 Haw eq_refl).
Defined.



Lemma retry_after_refresh_reports_false_witness :
  moreQ (col (exec (@new_Collection nat nat None) (load_ok 0 [10; 20; 30]))) = None /\
  exists w1 w2,
    run (exec (@new_Collection nat nat None) (load_ok 0 [10; 20; 30])) (CallRefresh :: load_err 1 7) = Some w1 /\
    loadingState (col w1) = Some Failed /\
    run w1 (CallMore :: load_ok 2 [40]) = Some w2 /\
    items (col w2) = [Some 40] /\
    settlement w2 2 = Some (Fulfilled (VResult
      {| r_items := [40]; oldLength := 0; newLength := 1;
         firstSuccessfulQuery := false |})).
Proof.
  split; [reflexivity|].
  destruct (retry_after_refresh_reports_false (exec (@new_Collection nat nat None) (load_ok 0 [10; 20; 30])) 7 [40] eq_refl)
    as (w1 & w2 & Hr1 & Hl & _ & _ & Hr2 & _ & Hi & Hs).
  exists w1, w2. split; [exact Hr1|]. split; [exact Hl|]. split; [exact Hr2|].
  split; [exact Hi|exact Hs].
Defined.

(** ** The further properties at concrete inputs *)

Lemma query_invoked_only_by_calls_witness :
  step (exec (@new_Collection nat nat None) (load_ok 0 [10; 20; 30])) CallMore = Some (exec (@new_Collection nat nat None) (load_ok 0 [10; 20; 30] ++ [CallMore])) /\
  (queried (exec (@new_Collection nat nat None) (load_ok 0 [10; 20; 30] ++ [CallMore])) = queried (exec (@new_Collection nat nat None) (load_ok 0 [10; 20; 30])) \/
   (moreQ (col (exec (@new_Collection nat nat None) (load_ok 0 [10; 20; 30]))) = None /\
    ((@CallMore nat nat = CallMore /\
      queried (exec (@new_Collection nat nat None) (load_ok 0 [10; 20; 30] ++ [CallMore])) = queried (exec (@new_Collection nat nat None) (load_ok 0 [10; 20; 30])) ++ [col_length (col (exec (@new_Collection nat nat None) (load_ok 0 [10; 20; 30])))]) \/
     (@CallMore nat nat = CallRefresh /\ queried (exec (@new_Collection nat nat None) (load_ok 0 [10; 20; 30] ++ [CallMore])) = queried (exec (@new_Collection nat nat None) (load_ok 0 [10; 20; 30])) ++ [0])))) /\
  run (@new_Collection nat nat None) (load_ok 0 [10; 20; 30] ++ [CallMore]) = Some (exec (@new_Collection nat nat None) (load_ok 0 [10; 20; 30] ++ [CallMore])) /\
  queried (@new_Collection nat nat None) `prefix_of` queried (exec (@new_Collection nat nat None) (load_ok 0 [10; 20; 30] ++ [CallMore])).
Proof.
  split; [reflexivity|]. split.
  - apply (proj1 query_invoked_only_by_calls (exec (@new_Collection nat nat None) (load_ok 0 [10; 20; 30])) (exec (@new_Collection nat nat None) (load_ok 0 [10; 20; 30] ++ [CallMore])) CallMore eq_refl).
  - split; [reflexivity|].
    apply (proj2 query_invoked_only_by_calls
             (load_ok 0 [10; 20; 30] ++ [CallMore]) (@new_Collection nat nat None) (exec (@new_Collection nat nat None) (load_ok 0 [10; 20; 30] ++ [CallMore])) eq_refl).
Defined.

Lemma loading_implies_empty_witness :
  reachable (@new_Collection nat nat None) /\
  loadingState (col (@new_Collection nat nat None)) = Some Loading /\
  col_length (col (@new_Collection nat nat None)) = 0 /\ items (col (@new_Collection nat nat None)) = [].
Proof.
  assert (reachable (@new_Collection nat nat None)) as Hw by (exists None, []; reflexivity).
  split; [exact Hw|]. split; [reflexivity|].
  apply (loading_implies_empty (@new_Collection nat nat None) Hw eq_refl).
Defined.

Lemma one_outstanding_attempt_witness :
  reachable (exec (@new_Collection nat nat None) (load_ok 0 [10; 20; 30] ++ [CallMore])) /\
  moreQ (col (exec (@new_Collection nat nat None) (load_ok 0 [10; 20; 30] ++ [CallMore]))) = Some 1 /\
  outstanding (exec (@new_Collection nat nat None) (load_ok 0 [10; 20; 30] ++ [CallMore])) 1 /\
  S 1 = length (attempts (exec (@new_Collection nat nat None) (load_ok 0 [10; 20; 30] ++ [CallMore]))).
Proof.
  assert (reachable (exec (@new_Collection nat nat None) (load_ok 0 [10; 20; 30] ++ [CallMore]))) as Hw
    by (exists None, (load_ok 0 [10; 20; 30] ++ [CallMore]); reflexivity).
  destruct (one_outstanding_attempt (exec (@new_Collection nat nat None) (load_ok 0 [10; 20; 30] ++ [CallMore])) Hw) as (H1 & _ & H3 & _).
  split; [exact Hw|]. split; [reflexivity|]. split.
  - apply (proj2 (H1 1) eq_refl).
  - apply (H3 1 eq_refl).
Defined.

Lemma no_holes_witness :
  reachable (exec (@new_Collection nat nat None) (load_ok 0 [10; 20; 30])) /\
  2 < col_length (col (exec (@new_Collection nat nat None) (load_ok 0 [10; 20; 30]))) /\
  is_Some (elems (col (exec (@new_Collection nat nat None) (load_ok 0 [10; 20; 30]))) !! 2).
Proof.
  assert (reachable (exec (@new_Collection nat nat None) (load_ok 0 [10; 20; 30]))) as Hw
    by (exists None, (load_ok 0 [10; 20; 30]); reflexivity).
  assert (2 < col_length (col (exec (@new_Collection nat nat None) (load_ok 0 [10; 20; 30])))) as Hlt by (vm_compute; lia).
  split; [exact Hw|]. split; [exact Hlt|].
  apply (proj1 (no_holes (exec (@new_Collection nat nat None) (load_ok 0 [10; 20; 30])) Hw) 2 Hlt).
Defined.

Lemma index_properties_kept_witness :
  run (exec (@new_Collection nat nat None) (load_ok 0 [10; 20; 30])) [CallRefresh] = Some (exec (exec (@new_Collection nat nat None) (load_ok 0 [10; 20; 30])) [CallRefresh]) /\
  is_Some (elems (col (exec (@new_Collection nat nat None) (load_ok 0 [10; 20; 30]))) !! 2) /\
  is_Some (elems (col (exec (exec (@new_Collection nat nat None) (load_ok 0 [10; 20; 30])) [CallRefresh])) !! 2) /\
  items (col (exec (exec (@new_Collection nat nat None) (load_ok 0 [10; 20; 30])) [CallRefresh])) = [].
Proof.
  assert (is_Some (elems (col (exec (@new_Collection nat nat None) (load_ok 0 [10; 20; 30]))) !! 2)) as Hs by (exists 30; reflexivity).
  split; [reflexivity|]. split; [exact Hs|]. split.
  - apply (proj2 index_properties_kept [CallRefresh] (exec (@new_Collection nat nat None) (load_ok 0 [10; 20; 30]))
             (exec (exec (@new_Collection nat nat None) (load_ok 0 [10; 20; 30])) [CallRefresh]) 2 eq_refl Hs).
  - apply (proj2 (proj1 index_properties_kept (exec (@new_Collection nat nat None) (load_ok 0 [10; 20; 30])))).
Defined.

Lemma result_lengths_witness :
  reachable (exec (@new_Collection nat nat None) (load_ok 0 [10; 20; 30])) /\
  moreQ (col (exec (@new_Collection nat nat None) (load_ok 0 [10; 20; 30]))) = None /\
  step (exec (@new_Collection nat nat None) (load_ok 0 [10; 20; 30])) CallMore = Some (exec (@new_Collection nat nat None) (load_ok 0 [10; 20; 30] ++ [CallMore])) /\
  (exists w3 r,
     step (exec (exec (@new_Collection nat nat None) (load_ok 0 [10; 20; 30] ++ [CallMore])) [QuerySettles 1 (QOk [40; 50])]) (RunThen 1) = Some w3 /\
     handler_result w3 1 = Some (Fulfilled (VResult r)) /\
     r_items r = [40; 50] /\ oldLength r = 3 /\
     newLength r = col_length (col w3) /\ newLength r = oldLength r + 2) /\
  (exists w3 r,
     step (exec (exec (@new_Collection nat nat None) (load_ok 0 [10; 20; 30] ++ [CallMore])) [CallRefresh; QuerySettles 1 (QOk [40; 50])]) (RunThen 1)
       = Some w3 /\
     handler_result w3 1 = Some (Fulfilled (VResult r)) /\
     r_items r = [40; 50] /\ oldLength r = 3 /\
     newLength r = col_length (col w3) /\ newLength r = 2).
Proof.
  assert (reachable (exec (@new_Collection nat nat None) (load_ok 0 [10; 20; 30]))) as Hw
    by (exists None, (load_ok 0 [10; 20; 30]); reflexivity).
  split; [exact Hw|]. split; [reflexivity|]. split; [reflexivity|]. split.
  - apply (result_lengths (exec (@new_Collection nat nat None) (load_ok 0 [10; 20; 30])) (exec (@new_Collection nat nat None) (load_ok 0 [10; 20; 30] ++ [CallMore])) (exec (exec (@new_Collection nat nat None) (load_ok 0 [10; 20; 30] ++ [CallMore])) [QuerySettles 1 (QOk [40; 50])])
             CallMore [QuerySettles 1 (QOk [40; 50])] [40; 50]
             Hw eq_refl (or_introl eq_refl) eq_refl eq_refl).
    eexists. split; [reflexivity|]. split; reflexivity.
  - apply (result_lengths (exec (@new_Collection nat nat None) (load_ok 0 [10; 20; 30])) (exec (@new_Collection nat nat None) (load_ok 0 [10; 20; 30] ++ [CallMore]))
             (exec (exec (@new_Collection nat nat None) (load_ok 0 [10; 20; 30] ++ [CallMore])) [CallRefresh; QuerySettles 1 (QOk [40; 50])])
             CallMore [CallRefresh; QuerySettles 1 (QOk [40; 50])] [40; 50]
             Hw eq_refl (or_introl eq_refl) eq_refl eq_refl).
    eexists. split; [reflexivity|]. split; reflexivity.
Defined.

Lemma without_refresh_never_first_witness :
  run (@new_Collection nat nat (Some false)) ([CallMore] ++ load_ok 0 [10])
    = Some (exec (@new_Collection nat nat (Some false)) ([CallMore] ++ load_ok 0 [10])) /\
  no_refresh (@CallMore nat nat :: load_ok 0 [10]) = true /\
  loadingState (col (exec (@new_Collection nat nat (Some false)) ([CallMore] ++ load_ok 0 [10]))) <> Some Loading /\
  handler_result (exec (@new_Collection nat nat (Some false)) ([CallMore] ++ load_ok 0 [10])) 0 = Some (Fulfilled (VResult
    {| r_items := [10]; oldLength := 0; newLength := 1;
       firstSuccessfulQuery := false |})).
Proof.
  split; [reflexivity|]. split; [reflexivity|]. split; [|reflexivity].
  apply (proj1 (without_refresh_never_first ([CallMore] ++ load_ok 0 [10]) (exec (@new_Collection nat nat (Some false)) ([CallMore] ++ load_ok 0 [10]))
                  eq_refl eq_refl)).
Defined.


Lemma pages_accumulate_witness :
  moreQ (col (exec (@new_Collection nat nat None) (load_ok 0 [10; 20; 30]))) = None /\
  exists w',
    run (exec (@new_Collection nat nat None) (load_ok 0 [10; 20; 30])) (load_pages 1 [[40; 50]; [60]]) = Some w' /\
    items (col w') = [Some 10; Some 20; Some 30; Some 40; Some 50; Some 60] /\
    queried w' = [0; 3; 5].
Proof.
  split; [reflexivity|].
  destruct (pages_accumulate [[40; 50]; [60]] (exec (@new_Collection nat nat None) (load_ok 0 [10; 20; 30])) eq_refl)
    as (w' & Hr & Hi & _ & Hq & _).
  exists w'. split; [exact Hr|]. split; [exact Hi|exact Hq].
Defined.

Lemma refresh_then_load_witness :
  moreQ (col (exec (@new_Collection nat nat None) (load_ok 0 [10; 20; 30]))) = None /\
  exists w',
    run (exec (@new_Collection nat nat None) (load_ok 0 [10; 20; 30])) (CallRefresh :: load_ok 1 [7; 8]) = Some w' /\
    items (col w') = [Some 7; Some 8] /\
    settlement w' 1 = Some (Fulfilled (VResult
      {| r_items := [7; 8]; oldLength := 0; newLength := 2;
         firstSuccessfulQuery := true |})).
Proof.
  split; [reflexivity|].
  destruct (refresh_then_load (exec (@new_Collection nat nat None) (load_ok 0 [10; 20; 30])) [7; 8] eq_refl)
    as (w' & Hr & Hi & _ & _ & _ & Hs).
  exists w'. split; [exact Hr|]. split; [exact Hi|exact Hs].
Defined.

